(** * PipelineExecutor (csrc/multidevice/executor.cpp)

    A shallow embedding of the multi-device pipeline executor: the
    membership query [shouldRun], the two [handle] overloads (stage and
    communication) and [runWithInput], followed by the properties the
    specification states about them.

    Conventions of the embedding.
    - Pointers ([PipelineStage*], [Val*]) are identities of type [nat]; the
      objects behind them are read through the pipeline ([stages],
      [getStage]).
    - [std::unordered_map] members are [gmap]s.  [operator[]] inserts a
      default-constructed value when the key is absent, [.at()] throws
      [std::out_of_range]; both are written out.
    - Vector sizes and loop counters ([size_t], and the [int] cursor [j] of
      the lowering loop) are [nat]: vectors of ranks are far below the range
      of those types, so no wrap-around is involved.
    - A C++ exception is the outcome [Fatal], carrying the executor as the
      exception left it; undefined behaviour (integer division by zero, a
      null [unique_ptr] dereference) is the outcome [Undefined].
    - Calls to the external collaborators (FusionExecutorCache, Communicator)
      are recorded in a trace, so that statements can count them. *)

From Stdlib Require Import ZArith Lia String.
From stdpp Require Import gmap list.

(** ** Identities and scalar types *)

Abbreviation Val := nat (only parsing).
Abbreviation StagePtr := nat (only parsing).
Abbreviation DeviceIdxType := Z (only parsing).
Abbreviation RankType := Z (only parsing).

(** ** Errors and outcomes *)

Inductive Error : Type :=
| OutOfRange                   (* std::out_of_range thrown by .at() *)
| NotATensor                   (* IValue::toTensor() on a non-tensor *)
| InternalAssert (msg : string) (* TORCH_INTERNAL_ASSERT *).

(** Outcome of a computation on local variables only. *)
Inductive Outcome (A : Type) : Type :=
| Done (a : A)
| Throw (e : Error)
| UB.
Arguments Done {A} a.
Arguments Throw {A} e.
Arguments UB {A}.

Definition obind {A B} (c : Outcome A) (k : A -> Outcome B) : Outcome B :=
  match c with
  | Done a => k a
  | Throw e => Throw e
  | UB => UB
  end.

(** ** The graph, as the executor reads it *)

Record PipelineStage : Type := {
  stage_inputs : list Val;
  stage_outputs : list Val;
  mesh : list DeviceIdxType (* descriptor()->mesh.deviceIndices() *)
}.

Record PipelineCommunication : Type := {
  comm_in : Val;  (* c->in() *)
  comm_out : Val  (* c->out() *)
}.

Inductive Node : Type :=
| NStage (stage : StagePtr)
| NComm (c : PipelineCommunication).

(** Modelled from the spec: the traversal primitive.  [traverseTo] belongs to
    the IR visitor, which is not part of this file; section 6 of the
    specification gives its contract: it yields the graph nodes (stage or
    communication kind) in a topological order ending at the target values.
    [traversal] is that sequence for the pipeline's outputs. *)
Record Pipeline : Type := {
  stages : StagePtr -> PipelineStage; (* dereference of a PipelineStage* *)
  getStage : Val -> StagePtr;         (* PipelineVal::getStage() *)
  inputs : list Val;
  outputs : list Val;
  traversal : list Node
}.

Record SendRecvDescriptor : Type := {
  team : list RankType;
  root : RankType
}.

(** ** Communication lowering (lines 64-100) *)

(** The inner loop: [n] iterations, each reading [receiver_ranks.at(j)],
    pushing it on the team and advancing [j]. *)
Fixpoint push_dests (n : nat) (receiver_ranks : list RankType) (j : nat)
    (team0 : list RankType) : Outcome (list RankType * nat) :=
  match n with
  | O => Done (team0, j)
  | S n' =>
      match receiver_ranks !! j with
      | None => Throw OutOfRange
      | Some dst => push_dests n' receiver_ranks (S j) (team0 ++ [dst])
      end
  end.

(** The loop bound [nbr_dests_per_comm + (i < remainder)]. *)
Definition nbr_dests (nbr_dests_per_comm remainder i : nat) : nat :=
  nbr_dests_per_comm + (if i <? remainder then 1 else 0).

(** The outer loop over [c10::irange(nbr_srcs)]. *)
Fixpoint lower_loop (range : list nat) (sender_ranks receiver_ranks : list RankType)
    (nbr_dests_per_comm remainder : nat) (j : nat)
    (communications : list SendRecvDescriptor) : Outcome (list SendRecvDescriptor) :=
  match range with
  | [] => Done communications
  | i :: range' =>
      match sender_ranks !! i with
      | None => Throw OutOfRange
      | Some src =>
          obind (push_dests (nbr_dests nbr_dests_per_comm remainder i)
                   receiver_ranks j [src])
            (fun '(team1, j') =>
               lower_loop range' sender_ranks receiver_ranks
                 nbr_dests_per_comm remainder j'
                 (communications ++ [{| team := team1; root := src |}]))
      end
  end.

(** Unsigned division and remainder by zero are undefined behaviour. *)
Definition lower (sender_ranks receiver_ranks : list RankType)
  : Outcome (list SendRecvDescriptor) :=
  let nbr_srcs := length sender_ranks in
  if Nat.eqb nbr_srcs 0 then UB
  else
    let nbr_dests_per_comm := length receiver_ranks / nbr_srcs in
    let remainder := length receiver_ranks mod nbr_srcs in
    lower_loop (seq 0 nbr_srcs) sender_ranks receiver_ranks
      nbr_dests_per_comm remainder 0 [].

(** [std::count(first, last, value)]. *)
Fixpoint std_count (l : list DeviceIdxType) (value : DeviceIdxType) : nat :=
  match l with
  | [] => 0
  | x :: l' => (if Z.eqb x value then 1 else 0) + std_count l' value
  end.

(** ** The executor *)

Section Executor.

Context {Tensor Runner Comm : Type}.

Inductive IValue : Type :=
| IVNone                 (* the default-constructed IValue *)
| IVTensor (t : Tensor)
| IVOther (payload : Z)  (* any other tag: scalars and the like *).

(** What the executor does outside its own maps, in program order: the
    calls to its collaborators, and the membership computation. *)
Inductive Event : Type :=
| EvMeshCount (stage : StagePtr)   (* the std::count of shouldRun *)
| EvMakeFEC (stage : StagePtr)     (* std::make_unique<FusionExecutorCache> *)
| EvRunFusion (stage : StagePtr) (args : list IValue)
| EvAllocOutputSpace (stage : StagePtr) (args : list IValue)
| EvSendRecv (receiver_rank sender_rank : RankType) (payload : Tensor).

(** [runtime_]: the pipeline, the rank mapping, and the behaviour of the two
    black boxes the executor drives. *)
Record MultiDeviceRuntime : Type := {
  pipeline_ : Pipeline;
  rank : RankType;
  rankToDiD : RankType -> DeviceIdxType;
  dIdToRank : DeviceIdxType -> RankType;
  (* FusionExecutorCache(stageToFusion(stage)) *)
  make_fec : StagePtr -> Runner;
  runFusionWithInputs : Runner -> list IValue -> list Tensor * Runner;
  allocOutputSpace : Runner -> list IValue -> list Tensor * Runner;
  (* comm_.sendRecv(receiver, sender, tensor): the payload and the
     communicator after the call *)
  sendRecv : Comm -> RankType -> RankType -> Tensor -> Tensor * Comm
}.

Record PipelineExecutor : Type := {
  should_run_ : gmap nat bool;
  fec_ : gmap nat Runner;
  val_to_IValue_ : gmap nat IValue;
  comm_ : Comm;
  trace : list Event
}.

Definition set_should_run (m : gmap nat bool) (ex : PipelineExecutor) :=
  {| should_run_ := m; fec_ := fec_ ex; val_to_IValue_ := val_to_IValue_ ex;
     comm_ := comm_ ex; trace := trace ex |}.

Definition set_fec (m : gmap nat Runner) (ex : PipelineExecutor) :=
  {| should_run_ := should_run_ ex; fec_ := m; val_to_IValue_ := val_to_IValue_ ex;
     comm_ := comm_ ex; trace := trace ex |}.

Definition set_vals (m : gmap nat IValue) (ex : PipelineExecutor) :=
  {| should_run_ := should_run_ ex; fec_ := fec_ ex; val_to_IValue_ := m;
     comm_ := comm_ ex; trace := trace ex |}.

Definition set_comm (c : Comm) (ex : PipelineExecutor) :=
  {| should_run_ := should_run_ ex; fec_ := fec_ ex;
     val_to_IValue_ := val_to_IValue_ ex; comm_ := c; trace := trace ex |}.

Definition log (e : Event) (ex : PipelineExecutor) :=
  {| should_run_ := should_run_ ex; fec_ := fec_ ex;
     val_to_IValue_ := val_to_IValue_ ex; comm_ := comm_ ex;
     trace := trace ex ++ [e] |}.

(** Modelled from the spec: the constructor.  It is declared in the header,
    which is not part of this file; section 3 of the specification has the
    caches filled once per stage in the executor's lifetime and the value
    bindings built within an execution, so a new executor holds three empty
    maps. *)
Definition new_executor (c : Comm) : PipelineExecutor :=
  {| should_run_ := ∅; fec_ := ∅; val_to_IValue_ := ∅; comm_ := c; trace := [] |}.

(** Result of a member function: a value and the executor after the call, an
    exception and the executor as it was when thrown, or undefined behaviour. *)
Inductive Res (A : Type) : Type :=
| Ok (a : A) (ex : PipelineExecutor)
| Fatal (e : Error) (ex : PipelineExecutor)
| Undefined.
Arguments Ok {A} a ex.
Arguments Fatal {A} e ex.
Arguments Undefined {A}.

Definition M (A : Type) : Type := PipelineExecutor -> Res A.

Definition ret {A} (a : A) : M A := fun ex => Ok a ex.

Definition bind {A B} (c : M A) (k : A -> M B) : M B :=
  fun ex =>
    match c ex with
    | Ok a ex' => k a ex'
    | Fatal e ex' => Fatal e ex'
    | Undefined => Undefined
    end.

Definition throw {A} (e : Error) : M A := fun ex => Fatal e ex.

Definition lift {A} (o : Outcome A) : M A :=
  fun ex =>
    match o with
    | Done a => Ok a ex
    | Throw e => Fatal e ex
    | UB => Undefined
    end.

Definition modify (f : PipelineExecutor -> PipelineExecutor) : M unit :=
  fun ex => Ok tt (f ex).

Notation "'let*' x ':=' c 'in' k" := (bind c (fun x => k))
  (at level 10, x pattern, c at level 100, k at level 200).

(** [v.at(i)] on a vector. *)
Definition vec_at {A} (v : list A) (i : nat) : M A :=
  match v !! i with
  | Some a => ret a
  | None => throw OutOfRange
  end.

(** [val_to_IValue_[v]] read as an rvalue: inserts a default IValue when [v]
    has no binding. *)
Definition val_index (v : Val) : M IValue :=
  fun ex =>
    match val_to_IValue_ ex !! v with
    | Some iv => Ok iv ex
    | None => Ok IVNone (set_vals (<[v := IVNone]> (val_to_IValue_ ex)) ex)
    end.

(** [val_to_IValue_.at(v)]. *)
Definition val_at (v : Val) : M IValue :=
  fun ex =>
    match val_to_IValue_ ex !! v with
    | Some iv => Ok iv ex
    | None => Fatal OutOfRange ex
    end.

(** [val_to_IValue_[v] = iv]. *)
Definition val_assign (v : Val) (iv : IValue) : M unit :=
  modify (fun ex => set_vals (<[v := iv]> (val_to_IValue_ ex)) ex).

(** [IValue::toTensor()]. *)
Definition toTensor (iv : IValue) : M Tensor :=
  match iv with
  | IVTensor t => ret t
  | _ => throw NotATensor
  end.

Variable runtime_ : MultiDeviceRuntime.

(** *** shouldRun (lines 15-25) *)

Definition in_mesh (stage : StagePtr) : bool :=
  negb (Nat.eqb
          (std_count (mesh (stages (pipeline_ runtime_) stage))
             (rankToDiD runtime_ (rank runtime_)))
          0).

Definition shouldRun (stage : StagePtr) : M bool :=
  let* _ :=
    (fun ex =>
       match should_run_ ex !! stage with
       | Some _ => Ok tt ex
       | None =>
           Ok tt (set_should_run (<[stage := in_mesh stage]> (should_run_ ex))
                    (log (EvMeshCount stage) ex))
       end) in
  (* return should_run_[stage]; *)
  fun ex =>
    match should_run_ ex !! stage with
    | Some b => Ok b ex
    | None => Ok false (set_should_run (<[stage := false]> (should_run_ ex)) ex)
    end.

(** *** handle(PipelineStage* ) (lines 27-52) *)

Fixpoint collect_inputs (vals : list Val) (stage_input_IValues : list IValue)
  : M (list IValue) :=
  match vals with
  | [] => ret stage_input_IValues
  | input_val :: vals' =>
      let* iv := val_index input_val in
      collect_inputs vals' (stage_input_IValues ++ [iv])
  end.

Definition ensure_fec (stage : StagePtr) : M unit :=
  fun ex =>
    match fec_ ex !! stage with
    | Some _ => Ok tt ex
    | None =>
        Ok tt (set_fec (<[stage := make_fec runtime_ stage]> (fec_ ex))
                 (log (EvMakeFEC stage) ex))
    end.

(** [fec_[stage]->f(args)]: the map holds [unique_ptr]s, so an absent key
    would yield a null pointer. *)
Definition call_fec (stage : StagePtr)
    (f : Runner -> list IValue -> list Tensor * Runner)
    (ev : StagePtr -> list IValue -> Event) (args : list IValue)
  : M (list Tensor) :=
  fun ex =>
    match fec_ ex !! stage with
    | None => Undefined
    | Some r =>
        let '(outs, r') := f r args in
        Ok outs (set_fec (<[stage := r']> (fec_ ex)) (log (ev stage args) ex))
    end.

(** The assignment evaluates its right operand, [outputs.at(output_idx)],
    before the left one. *)
Fixpoint store_outputs (range : list nat) (stage_outs : list Val)
    (outs : list Tensor) : M unit :=
  match range with
  | [] => ret tt
  | output_idx :: range' =>
      let* t := vec_at outs output_idx in
      let* v := vec_at stage_outs output_idx in
      let* _ := val_assign v (IVTensor t) in
      store_outputs range' stage_outs outs
  end.

(** Lines 29-46: everything up to the runner's result. *)
Definition run_stage (stage : StagePtr) : M (list Tensor) :=
  let* stage_input_IValues :=
    collect_inputs (stage_inputs (stages (pipeline_ runtime_) stage)) [] in
  let* _ := ensure_fec stage in
  let* local := shouldRun stage in
  if local
  then call_fec stage (runFusionWithInputs runtime_) EvRunFusion stage_input_IValues
  else call_fec stage (allocOutputSpace runtime_) EvAllocOutputSpace stage_input_IValues.

Definition handle_stage (stage : StagePtr) : M unit :=
  let* outs := run_stage stage in
  let stage_outs := stage_outputs (stages (pipeline_ runtime_) stage) in
  store_outputs (seq 0 (length stage_outs)) stage_outs outs.

(** *** handle(PipelineCommunication* ) (lines 59-118) *)

Definition mesh_ranks (v : Val) : list RankType :=
  map (dIdToRank runtime_)
    (mesh (stages (pipeline_ runtime_) (getStage (pipeline_ runtime_) v))).

Definition do_sendRecv (receiver_rank sender_rank : RankType) (tensor : Tensor)
  : M Tensor :=
  fun ex =>
    let '(tensor', c') := sendRecv runtime_ (comm_ ex) receiver_rank sender_rank tensor in
    Ok tensor' (set_comm c' (log (EvSendRecv receiver_rank sender_rank tensor) ex)).

Fixpoint sendRecv_team (sender_rank : RankType) (members : list RankType)
    (tensor : Tensor) : M Tensor :=
  match members with
  | [] => ret tensor
  | receiver_rank :: members' =>
      let* tensor' := do_sendRecv receiver_rank sender_rank tensor in
      sendRecv_team sender_rank members' tensor'
  end.

Fixpoint perform (communications : list SendRecvDescriptor) (tensor : Tensor)
  : M Tensor :=
  match communications with
  | [] => ret tensor
  | communication :: rest =>
      let* tensor' := sendRecv_team (root communication) (team communication) tensor in
      perform rest tensor'
  end.

Definition handle_comm (c : PipelineCommunication) : M unit :=
  let sender_ranks := mesh_ranks (comm_in c) in
  let receiver_ranks := mesh_ranks (comm_out c) in
  let* communications := lift (lower sender_ranks receiver_ranks) in
  let* iv := val_at (comm_in c) in
  let* tensor := toTensor iv in
  let* tensor' := perform communications tensor in
  val_assign (comm_out c) (IVTensor tensor').

(** *** runWithInput (lines 120-143) *)

Definition handle (n : Node) : M unit :=
  match n with
  | NStage stage => handle_stage stage
  | NComm c => handle_comm c
  end.

Fixpoint traverse (nodes : list Node) : M unit :=
  match nodes with
  | [] => ret tt
  | n :: nodes' => let* _ := handle n in traverse nodes'
  end.

Fixpoint bind_inputs (range : list nat) (ins : list IValue) : M unit :=
  match range with
  | [] => ret tt
  | input_idx :: range' =>
      let* iv := vec_at ins input_idx in
      let* v := vec_at (inputs (pipeline_ runtime_)) input_idx in
      let* _ := val_assign v iv in
      bind_inputs range' ins
  end.

Fixpoint collect_outputs (vals : list Val) (outs : list Tensor) : M (list Tensor) :=
  match vals with
  | [] => ret outs
  | output_val :: vals' =>
      let* iv := val_index output_val in
      let* t := toTensor iv in
      collect_outputs vals' (outs ++ [t])
  end.

Definition runWithInput (ins : list IValue) : M (list Tensor) :=
  if negb (Nat.eqb (length ins) (length (inputs (pipeline_ runtime_))))
  then throw (InternalAssert "Wrong number of inputs")
  else
    let* _ := bind_inputs (seq 0 (length ins)) ins in
    let* _ := traverse (traversal (pipeline_ runtime_)) in
    collect_outputs (outputs (pipeline_ runtime_)) [].

(** ** Closed forms of the loops

    What the loops above compute, written as plain functions on the maps and
    on the communicator; the properties section proves that the code agrees
    with them. *)

(** The default-inserting read, on the map alone. *)
Definition touch (m : gmap nat IValue) (v : Val) : gmap nat IValue :=
  match m !! v with
  | Some _ => m
  | None => <[v := IVNone]> m
  end.

Definition read_or_default (m : gmap nat IValue) (v : Val) : IValue :=
  default IVNone (m !! v).

(** Successive assignments of tensors to values, in list order. *)
Definition bind_tensors (m : gmap nat IValue) (l : list (Val * Tensor))
  : gmap nat IValue :=
  foldl (λ m vt, <[vt.1 := IVTensor vt.2]> m) m l.

(** Payload, communicator and events after one call per member of a team. *)
Fixpoint team_transfer (sender_rank : RankType) (members : list RankType)
    (tensor : Tensor) (c : Comm) : Tensor * Comm * list Event :=
  match members with
  | [] => (tensor, c, [])
  | receiver_rank :: members' =>
      let '(tensor1, c1) := sendRecv runtime_ c receiver_rank sender_rank tensor in
      let '(tensor2, c2, evs) := team_transfer sender_rank members' tensor1 c1 in
      (tensor2, c2, EvSendRecv receiver_rank sender_rank tensor :: evs)
  end.

Fixpoint transfer (communications : list SendRecvDescriptor)
    (tensor : Tensor) (c : Comm) : Tensor * Comm * list Event :=
  match communications with
  | [] => (tensor, c, [])
  | communication :: rest =>
      let '(tensor1, c1, evs1) :=
        team_transfer (root communication) (team communication) tensor c in
      let '(tensor2, c2, evs2) := transfer rest tensor1 c1 in
      (tensor2, c2, evs1 ++ evs2)
  end.

(** One (receiver, sender) pair per team member, root included. *)
Definition team_pairs (d : SendRecvDescriptor) : list (RankType * RankType) :=
  map (λ member, (member, root d)) (team d).

Definition set_trace (tr : list Event) (ex : PipelineExecutor) :=
  {| should_run_ := should_run_ ex; fec_ := fec_ ex;
     val_to_IValue_ := val_to_IValue_ ex; comm_ := comm_ ex; trace := tr |}.

(** ** Comparing an executor before and after a call

    [extends P ex ex']: [ex'] keeps every cached membership of [ex], adds
    only memberships computed from the mesh, keeps every cached runner and
    every bound value, and its trace prolongs that of [ex]; a construction
    or a membership computation in the new part concerns a stage satisfying
    [P] that was absent from the corresponding cache of [ex]. *)
Record extends (P : StagePtr -> Prop) (ex ex' : PipelineExecutor) : Prop := {
  ext_should_run : should_run_ ex ⊆ should_run_ ex';
  ext_should_run_new : ∀ s b,
    should_run_ ex' !! s = Some b →
    should_run_ ex !! s = Some b ∨ b = in_mesh s;
  ext_fec : dom (fec_ ex) ⊆ dom (fec_ ex');
  ext_vals : dom (val_to_IValue_ ex) ⊆ dom (val_to_IValue_ ex');
  ext_trace : ∃ new,
    trace ex' = trace ex ++ new ∧
    (∀ s, EvMakeFEC s ∈ new → P s ∧ s ∉ dom (fec_ ex)) ∧
    (∀ s, EvMeshCount s ∈ new → P s ∧ s ∉ dom (should_run_ ex))
}.

Definition preserves {A} (P : StagePtr -> Prop) (c : M A) : Prop :=
  ∀ ex,
    match c ex with
    | Ok _ ex' => extends P ex ex'
    | Fatal _ ex' => extends P ex ex'
    | Undefined => True
    end.

(** ** The executor's lifetime

    The member functions a caller (or the traversal) can invoke on an
    executor, and the executors reachable from a fresh one through them.  A
    call that throws leaves the executor usable; undefined behaviour does
    not. *)

Inductive Call : Type :=
| CallShouldRun (stage : StagePtr)
| CallHandleStage (stage : StagePtr)
| CallHandleComm (c : PipelineCommunication)
| CallRunWithInput (ins : list IValue).

Definition after {A} (r : Res A) : option PipelineExecutor :=
  match r with
  | Ok _ ex => Some ex
  | Fatal _ ex => Some ex
  | Undefined => None
  end.

Definition call (ex : PipelineExecutor) (c : Call) : option PipelineExecutor :=
  match c with
  | CallShouldRun stage => after (shouldRun stage ex)
  | CallHandleStage stage => after (handle_stage stage ex)
  | CallHandleComm c => after (handle_comm c ex)
  | CallRunWithInput ins => after (runWithInput ins ex)
  end.

Fixpoint calls (ex : PipelineExecutor) (cs : list Call) : option PipelineExecutor :=
  match cs with
  | [] => Some ex
  | c :: cs' =>
      match call ex c with
      | Some ex' => calls ex' cs'
      | None => None
      end
  end.

Definition reachable (ex : PipelineExecutor) : Prop :=
  exists c0 cs, calls (new_executor c0) cs = Some ex.

(** ** Reading the trace *)

Definition sendRecv_ranks (e : Event) : option (RankType * RankType) :=
  match e with
  | EvSendRecv receiver_rank sender_rank _ => Some (receiver_rank, sender_rank)
  | _ => None
  end.

(** The (receiver, sender) pairs of the Communicator calls of a trace. *)
Definition sendRecv_calls (tr : list Event) : list (RankType * RankType) :=
  omap sendRecv_ranks tr.

Definition is_construction (e : Event) : bool :=
  match e with
  | EvMakeFEC _ => true
  | _ => false
  end.

Definition is_mesh_count (e : Event) : bool :=
  match e with
  | EvMeshCount _ => true
  | _ => false
  end.

Definition is_fatal {A} (r : Res A) : bool :=
  match r with
  | Fatal _ _ => true
  | _ => false
  end.

End Executor.

Arguments IValue : clear implicits.
Arguments Ok {Tensor Runner Comm A} a ex.
Arguments Fatal {Tensor Runner Comm A} e ex.
Arguments Undefined {Tensor Runner Comm A}.
Arguments Event : clear implicits.
Arguments MultiDeviceRuntime : clear implicits.
Arguments PipelineExecutor : clear implicits.

(** ** The slices the specification describes *)

(** Start of sender [i]'s slice of the receivers: [i] full allotments plus
    one for each earlier sender that got an extra receiver. *)
Definition slice_start (q r i : nat) : nat := i * q + Nat.min i r.

(** The descriptors of senders [i], [i+1], ... as the specification words
    them: the sender itself followed by its contiguous slice. *)
Fixpoint sliced (q r : nat) (receiver_ranks : list RankType) (i : nat)
    (srcs : list RankType) : list SendRecvDescriptor :=
  match srcs with
  | [] => []
  | src :: srcs' =>
      {| team := src :: take (nbr_dests q r i) (drop (slice_start q r i) receiver_ranks);
         root := src |}
      :: sliced q r receiver_ranks (S i) srcs'
  end.

(** The receivers proper of a descriptor: its team without the leading root. *)
Definition extra_receivers (d : SendRecvDescriptor) : list RankType := tail (team d).

(** ** A concrete deployment

    The end-to-end scenario of the specification: one global input [V0];
    stage 1 on mesh {0} consumes [V0] and produces [V1]; a communication
    carries [V1] to [V2]; stage 2 on mesh {1, 2} consumes [V2] and produces
    the global output [V3].  Devices and ranks coincide.  Tensors are lists
    of integers; a runner and the communicator count their calls; a runner
    returns [nout] tensors whatever it is given. *)
Module Scenario.

Definition stage_of (stage : StagePtr) : PipelineStage :=
  match stage with
  | 1 => {| stage_inputs := [0]; stage_outputs := [1]; mesh := [0%Z] |}
  | 2 => {| stage_inputs := [2]; stage_outputs := [3]; mesh := [1%Z; 2%Z] |}
  | _ => {| stage_inputs := []; stage_outputs := []; mesh := [] |}
  end.

Definition stage_of_val (v : Val) : StagePtr :=
  match v with
  | 1 => 1
  | 2 | 3 => 2
  | _ => 0
  end.

Definition edge : PipelineCommunication := {| comm_in := 1; comm_out := 2 |}.

(** An edge whose producer value belongs to a stage with an empty mesh. *)
Definition orphan_edge : PipelineCommunication := {| comm_in := 9; comm_out := 2 |}.

Definition pipeline : Pipeline :=
  {| stages := stage_of; getStage := stage_of_val;
     inputs := [0]; outputs := [3];
     traversal := [NStage 1; NComm edge; NStage 2] |}.

Definition runtime (r : RankType) (nout : nat)
  : MultiDeviceRuntime (list Z) nat nat :=
  {| pipeline_ := pipeline; rank := r;
     rankToDiD := λ x, x; dIdToRank := λ x, x;
     make_fec := λ _, 0;
     runFusionWithInputs := λ n _, (repeat [1%Z; 2%Z; 3%Z] nout, S n);
     allocOutputSpace := λ n _, (repeat [] nout, S n);
     sendRecv := λ n _ _ t, (t, S n) |}.

Definition fresh : PipelineExecutor (list Z) nat nat := new_executor 0.

(** An executor in which only the producer value [V1] is bound. *)
Definition produced : PipelineExecutor (list Z) nat nat :=
  set_vals {[ 1 := IVTensor [1%Z; 2%Z; 3%Z] ]} fresh.

Definition payload : IValue (list Z) := IVTensor [7%Z].

End Scenario.

(** ** Vocabulary of the further properties *)

Section Vocabulary.

Context {Tensor Runner Comm : Type}.
Variable runtime_ : MultiDeviceRuntime Tensor Runner Comm.

(** *** One stage, in closed form

    What [run_stage] reads and does on an executor: the arguments read from
    the bindings, the runner used (the cached one, or a new one), the
    membership used (the cached one, or the computed one), the runner's
    answer, the events recorded and the executor left. *)

Definition stage_args (ex : PipelineExecutor Tensor Runner Comm)
    (stage : StagePtr) : list (IValue Tensor) :=
  map (read_or_default (val_to_IValue_ ex))
    (stage_inputs (stages (pipeline_ runtime_) stage)).

Definition stage_runner (ex : PipelineExecutor Tensor Runner Comm)
    (stage : StagePtr) : Runner :=
  default (make_fec runtime_ stage) (fec_ ex !! stage).

Definition stage_local (ex : PipelineExecutor Tensor Runner Comm)
    (stage : StagePtr) : bool :=
  default (in_mesh runtime_ stage) (should_run_ ex !! stage).

Definition stage_call (ex : PipelineExecutor Tensor Runner Comm)
    (stage : StagePtr) : list Tensor * Runner :=
  (if stage_local ex stage
   then runFusionWithInputs runtime_
   else allocOutputSpace runtime_) (stage_runner ex stage) (stage_args ex stage).

Definition stage_events (ex : PipelineExecutor Tensor Runner Comm)
    (stage : StagePtr) : list (Event Tensor) :=
  (match fec_ ex !! stage with Some _ => [] | None => [EvMakeFEC stage] end)
  ++ (match should_run_ ex !! stage with Some _ => [] | None => [EvMeshCount stage] end)
  ++ [(if stage_local ex stage then EvRunFusion else EvAllocOutputSpace)
        stage (stage_args ex stage)].

Definition after_run_stage (ex : PipelineExecutor Tensor Runner Comm)
    (stage : StagePtr) : PipelineExecutor Tensor Runner Comm :=
  {| should_run_ := <[stage := stage_local ex stage]> (should_run_ ex);
     fec_ := <[stage := (stage_call ex stage).2]> (fec_ ex);
     val_to_IValue_ :=
       foldl touch (val_to_IValue_ ex)
         (stage_inputs (stages (pipeline_ runtime_) stage));
     comm_ := comm_ ex;
     trace := trace ex ++ stage_events ex stage |}.

(** *** Relations between the executor before and after *)

(** Only the value bindings may differ. *)
Definition only_store (ex ex' : PipelineExecutor Tensor Runner Comm) : Prop :=
  should_run_ ex' = should_run_ ex ∧ fec_ ex' = fec_ ex ∧
  comm_ ex' = comm_ ex ∧ trace ex' = trace ex.

(** Whenever the computation leaves an executor, it is related to the one
    it started from. *)
Definition respects {A}
    (R : PipelineExecutor Tensor Runner Comm →
         PipelineExecutor Tensor Runner Comm → Prop)
    (c : M A) : Prop :=
  ∀ ex,
    match c ex with
    | Ok _ ex' => R ex ex'
    | Fatal _ ex' => R ex ex'
    | Undefined => True
    end.

(** The binding of [v], once made, is left alone. *)
Definition keeps_binding (v : Val)
    (ex ex' : PipelineExecutor Tensor Runner Comm) : Prop :=
  ∀ iv, val_to_IValue_ ex !! v = Some iv → val_to_IValue_ ex' !! v = Some iv.

(** *** Reading the trace, continued *)

Definition is_sendRecv (e : Event Tensor) : bool :=
  match e with
  | EvSendRecv _ _ _ => true
  | _ => false
  end.

(** The stages whose runner was constructed, in order of construction. *)
Definition constructed (tr : list (Event Tensor)) : list StagePtr :=
  omap (λ e, match e with EvMakeFEC s => Some s | _ => None end) tr.

(** The stages whose membership was computed, in order of computation. *)
Definition computed (tr : list (Event Tensor)) : list StagePtr :=
  omap (λ e, match e with EvMeshCount s => Some s | _ => None end) tr.

(** The caches hold exactly the stages the trace says were filled in, each
    filled in once. *)
Definition tidy (ex : PipelineExecutor Tensor Runner Comm) : Prop :=
  NoDup (constructed (trace ex)) ∧
  NoDup (computed (trace ex)) ∧
  (∀ s, s ∈ constructed (trace ex) ↔ s ∈ dom (fec_ ex)) ∧
  (∀ s, s ∈ computed (trace ex) ↔ s ∈ dom (should_run_ ex)).

Definition keeps_tidy (ex ex' : PipelineExecutor Tensor Runner Comm) : Prop :=
  tidy ex → tidy ex'.

(** *** The transfers of a pipeline *)

(** The (receiver, sender) pairs of an edge: those of its lowering. *)
Definition edge_calls (c : PipelineCommunication) : list (RankType * RankType) :=
  match lower (mesh_ranks runtime_ (comm_in c)) (mesh_ranks runtime_ (comm_out c)) with
  | Done ds => concat (map team_pairs ds)
  | _ => []
  end.

Definition node_calls (n : Node) : list (RankType * RankType) :=
  match n with
  | NStage _ => []
  | NComm c => edge_calls c
  end.

Definition schedule (nodes : list Node) : list (RankType * RankType) :=
  concat (map node_calls nodes).

(** The values a node assigns. *)
Definition node_writes (n : Node) : list Val :=
  match n with
  | NStage stage => stage_outputs (stages (pipeline_ runtime_) stage)
  | NComm c => [comm_out c]
  end.

End Vocabulary.

(** * Properties *)

(** ** Lowering *)

Example lower_3_over_2 :
  lower [10; 20]%Z [1; 2; 3]%Z
  = Done [{| team := [10; 1; 2]%Z; root := 10%Z |};
          {| team := [20; 3]%Z; root := 20%Z |}].
Proof. reflexivity. Qed.

Example lower_1_over_3 :
  lower [10; 20; 30]%Z [1]%Z
  = Done [{| team := [10; 1]%Z; root := 10%Z |};
          {| team := [20]%Z; root := 20%Z |};
          {| team := [30]%Z; root := 30%Z |}].
Proof. reflexivity. Qed.

Example lower_no_receiver :
  lower [10]%Z [] = Done [{| team := [10]%Z; root := 10%Z |}].
Proof. reflexivity. Qed.

Lemma slice_start_S q r i :
  slice_start q r (S i) = slice_start q r i + nbr_dests q r i.
Proof.
  unfold slice_start, nbr_dests.
  destruct (Nat.ltb_spec i r); lia.
Qed.

Lemma slice_start_mono q r i k : i ≤ k → slice_start q r i ≤ slice_start q r k.
Proof.
  induction 1 as [|k _ IH]; [done|].
  rewrite slice_start_S. lia.
Qed.

Lemma slice_start_end (n m : nat) :
  n ≠ 0 → slice_start (m / n) (m mod n) n = m.
Proof.
  intros Hn. unfold slice_start.
  pose proof (Nat.mod_upper_bound m n Hn).
  pose proof (Nat.div_mod m n Hn). lia.
Qed.

Lemma push_dests_ok n (R : list RankType) j team0 :
  j + n ≤ length R →
  push_dests n R j team0 = Done (team0 ++ take n (drop j R), j + n).
Proof.
  revert j team0. induction n as [|n IH]; intros j team0 Hle; simpl.
  - by rewrite take_0, app_nil_r, Nat.add_0_r.
  - destruct (lookup_lt_is_Some_2 R j) as [dst Hdst]; [lia|].
    rewrite Hdst, IH by lia.
    rewrite (drop_S _ _ _ Hdst). simpl.
    by rewrite <- app_assoc, Nat.add_succ_r.
Qed.

Lemma lower_loop_ok q r (R : list RankType) rest : ∀ pre acc,
  slice_start q r (length pre + length rest) ≤ length R →
  lower_loop (seq (length pre) (length rest)) (pre ++ rest) R q r
    (slice_start q r (length pre)) acc
  = Done (acc ++ sliced q r R (length pre) rest).
Proof.
  induction rest as [|src rest IH]; intros pre acc Hle; simpl.
  - by rewrite app_nil_r.
  - rewrite lookup_app_r, Nat.sub_diag by lia. simpl.
    assert (slice_start q r (S (length pre)) ≤ length R) as HS.
    { etrans; [|exact Hle]. apply slice_start_mono. simpl. lia. }
    rewrite slice_start_S in HS.
    rewrite push_dests_ok by lia. simpl.
    rewrite <- slice_start_S.
    specialize (IH (pre ++ [src]) (acc ++
      [{| team := src :: take (nbr_dests q r (length pre))
                           (drop (slice_start q r (length pre)) R);
          root := src |}])).
    rewrite length_app in IH. simpl in IH.
    rewrite Nat.add_1_r in IH. rewrite <- app_assoc in IH. simpl in IH.
    rewrite IH.
    + by rewrite <- app_assoc.
    + simpl in Hle. by rewrite Nat.add_succ_r in Hle.
Qed.

(** The loop computes the slices. *)
Lemma lower_sliced (S R : list RankType) :
  S ≠ [] →
  lower S R = Done (sliced (length R / length S) (length R mod length S) R 0 S).
Proof.
  intros HS. unfold lower.
  assert (length S ≠ 0) as Hn by (destruct S; simpl; [done|lia]).
  destruct (Nat.eqb_spec (length S) 0) as [|_]; [done|].
  pose proof (lower_loop_ok (length R / length S) (length R mod length S) R S [] []) as H.
  simpl in H. apply H. by rewrite slice_start_end.
Qed.

Lemma sliced_length q r R i srcs : length (sliced q r R i srcs) = length srcs.
Proof. revert i. induction srcs; intros; simpl; auto. Qed.

Lemma sliced_roots q r R i srcs : map root (sliced q r R i srcs) = srcs.
Proof. revert i. induction srcs; intros; simpl; f_equal; auto. Qed.

Lemma sliced_lookup q r R srcs : ∀ i k d,
  sliced q r R i srcs !! k = Some d →
  ∃ src, srcs !! k = Some src ∧
    d = {| team := src :: take (nbr_dests q r (i + k)) (drop (slice_start q r (i + k)) R);
           root := src |}.
Proof.
  induction srcs as [|src srcs IH]; intros i [|k] d Hd; simpl in *; try done.
  - injection Hd as <-. exists src. by rewrite Nat.add_0_r.
  - destruct (IH _ _ _ Hd) as (src' & ? & ->).
    exists src'. by rewrite Nat.add_succ_r.
Qed.

Lemma sliced_concat q r (R : list RankType) srcs : ∀ i,
  concat (map extra_receivers (sliced q r R i srcs))
  = take (slice_start q r (i + length srcs) - slice_start q r i)
         (drop (slice_start q r i) R).
Proof.
  induction srcs as [|src srcs IH]; intros i; simpl.
  - by rewrite Nat.add_0_r, Nat.sub_diag.
  - rewrite IH. unfold extra_receivers at 1. cbn [team tail].
    replace (S i + length srcs) with (i + S (length srcs)) by lia.
    pose proof (slice_start_mono q r (S i) (i + S (length srcs)) ltac:(lia)) as Hm.
    rewrite (slice_start_S q r i) in *.
    rewrite <- (drop_drop R (nbr_dests q r i) (slice_start q r i)).
    rewrite take_take_drop. f_equal. lia.
Qed.

(** Put end to end, the slices are the receiver list. *)
Lemma sliced_covers (senders receivers : list RankType) :
  senders ≠ [] →
  concat (map extra_receivers
            (sliced (length receivers / length senders)
               (length receivers mod length senders) receivers 0 senders))
  = receivers.
Proof.
  intros HS.
  assert (length senders ≠ 0) as Hn by (destruct senders; simpl; [done|lia]).
  rewrite sliced_concat. simpl. rewrite slice_start_end by done.
  unfold slice_start. simpl. rewrite Nat.sub_0_r. apply firstn_all.
Qed.

(** ** What a call may change: the frame of every member function *)

Section Frame.

Context {Tensor Runner Comm : Type}.
Variable runtime_ : MultiDeviceRuntime Tensor Runner Comm.

Abbreviation Exec := (PipelineExecutor Tensor Runner Comm).

Lemma std_count_elem_of (l : list Z) (x : Z) : std_count l x ≠ 0 ↔ x ∈ l.
Proof.
  induction l as [|y l IH]; simpl.
  - split; [done|]. by intros ?%elem_of_nil.
  - rewrite elem_of_cons. destruct (Z.eqb_spec y x) as [->|Hne].
    + split; [by left|lia].
    + simpl. rewrite IH. split; [by right|]. intros [->|]; done.
Qed.

Lemma in_mesh_spec stage :
  in_mesh runtime_ stage = true ↔
  rankToDiD runtime_ (rank runtime_) ∈ mesh (stages (pipeline_ runtime_) stage).
Proof.
  unfold in_mesh. rewrite <- std_count_elem_of.
  destruct (Nat.eqb_spec (std_count (mesh (stages (pipeline_ runtime_) stage))
    (rankToDiD runtime_ (rank runtime_))) 0) as [->|]; simpl; split; try done.
Qed.

Lemma extends_refl P (ex : Exec) : extends runtime_ P ex ex.
Proof.
  split; try done.
  - intros s b ?. by left.
  - exists []. rewrite app_nil_r. split; [done|].
    split; intros s Hs; by apply elem_of_nil in Hs.
Qed.

Lemma extends_trans P (ex ex1 ex2 : Exec) :
  extends runtime_ P ex ex1 → extends runtime_ P ex1 ex2 → extends runtime_ P ex ex2.
Proof.
  intros [H1 H2 H3 H4 (n1 & Ht1 & Hf1 & Hm1)] [G1 G2 G3 G4 (n2 & Ht2 & Hf2 & Hm2)].
  split.
  - by etrans.
  - intros s b Hb. destruct (G2 _ _ Hb) as [Hb'|]; [|by right]. by apply H2.
  - by etrans.
  - by etrans.
  - exists (n1 ++ n2). rewrite Ht2, Ht1, app_assoc. split; [done|].
    split; intros s [Hs|Hs]%elem_of_app.
    + by apply Hf1.
    + destruct (Hf2 _ Hs) as [? Hn]. split; [done|]. intros Hd. by apply Hn, H3.
    + by apply Hm1.
    + destruct (Hm2 _ Hs) as [? Hn]. split; [done|].
      intros Hd. apply Hn. apply elem_of_dom in Hd as [b Hb].
      apply elem_of_dom. exists b. by eapply lookup_weaken.
Qed.

Lemma extends_weaken (P Q : nat → Prop) (ex ex' : Exec) :
  (∀ s, P s → Q s) → extends runtime_ P ex ex' → extends runtime_ Q ex ex'.
Proof.
  intros HPQ [H1 H2 H3 H4 (n & Ht & Hf & Hm)]. split; try done.
  exists n. split; [done|]. split; intros s Hs.
  - destruct (Hf _ Hs). auto.
  - destruct (Hm _ Hs). auto.
Qed.

Lemma preserves_weaken {A} (P Q : nat → Prop) (c : M A) :
  (∀ s, P s → Q s) → preserves runtime_ P c → preserves runtime_ Q c.
Proof.
  intros HPQ Hc ex. specialize (Hc ex).
  destruct (c ex); eauto using extends_weaken.
Qed.

Lemma preserves_ret {A} P (a : A) : preserves runtime_ P (ret a).
Proof. intros ex. apply extends_refl. Qed.

Lemma preserves_throw {A} P e : preserves runtime_ P (@throw _ _ _ A e).
Proof. intros ex. apply extends_refl. Qed.

Lemma preserves_lift {A} P (o : Outcome A) : preserves runtime_ P (lift o).
Proof. intros ex. destruct o; simpl; try done; apply extends_refl. Qed.

Lemma preserves_bind {A B} P (c : M A) (k : A → M B) :
  preserves runtime_ P c → (∀ a, preserves runtime_ P (k a)) →
  preserves runtime_ P (bind c k).
Proof.
  intros Hc Hk ex. unfold bind. specialize (Hc ex).
  destruct (c ex) as [a ex1|e ex1|]; try done.
  specialize (Hk a ex1). destruct (k a ex1); try done;
    eauto using extends_trans.
Qed.

Lemma preserves_vec_at {A} P (v : list A) i : preserves runtime_ P (vec_at v i).
Proof. unfold vec_at. destruct (v !! i); [apply preserves_ret|apply preserves_throw]. Qed.

Lemma preserves_toTensor P (iv : IValue Tensor) : preserves runtime_ P (toTensor iv).
Proof. destruct iv; [apply preserves_throw|apply preserves_ret|apply preserves_throw]. Qed.

Lemma extends_set_vals P (ex : Exec) v iv :
  extends runtime_ P ex (set_vals (<[v := iv]> (val_to_IValue_ ex)) ex).
Proof.
  split; simpl; try done.
  - intros s b ?. by left.
  - apply dom_insert_subseteq.
  - exists []. rewrite app_nil_r. split; [done|].
    split; intros s Hs; by apply elem_of_nil in Hs.
Qed.

Lemma preserves_val_index P v : preserves runtime_ P (val_index v).
Proof.
  intros ex. unfold val_index.
  destruct (val_to_IValue_ ex !! v); [apply extends_refl|apply extends_set_vals].
Qed.

Lemma preserves_val_at P v : preserves runtime_ P (val_at v).
Proof.
  intros ex. unfold val_at.
  destruct (val_to_IValue_ ex !! v); apply extends_refl.
Qed.

Lemma preserves_val_assign P v iv : preserves runtime_ P (val_assign v iv).
Proof. intros ex. apply extends_set_vals. Qed.

Lemma preserves_do_sendRecv P receiver_rank sender_rank t :
  preserves runtime_ P (do_sendRecv runtime_ receiver_rank sender_rank t).
Proof.
  intros ex. unfold do_sendRecv.
  destruct (sendRecv runtime_ (comm_ ex) receiver_rank sender_rank t) as [t' c'].
  split; simpl; try done.
  - intros s b ?. by left.
  - eexists. split; [done|].
    split; intros s Hs; apply list_elem_of_singleton in Hs; done.
Qed.

Lemma preserves_ensure_fec stage :
  preserves runtime_ (λ s, s = stage) (ensure_fec runtime_ stage).
Proof.
  intros ex. unfold ensure_fec.
  destruct (fec_ ex !! stage) eqn:Hl; [apply extends_refl|].
  split; simpl; try done.
  - intros s b ?. by left.
  - apply dom_insert_subseteq.
  - eexists. split; [done|].
    split; intros s Hs; apply list_elem_of_singleton in Hs; [|done].
    injection Hs as ->. split; [done|]. by apply not_elem_of_dom.
Qed.

Lemma preserves_call_fec stage f ev args :
  (∀ s a, is_construction (ev s a) = false ∧ is_mesh_count (ev s a) = false) →
  preserves runtime_ (λ s, s = stage) (call_fec stage f ev args).
Proof.
  intros Hev ex. unfold call_fec.
  destruct (fec_ ex !! stage) eqn:Hl; [|done].
  destruct (f r args) as [outs r'].
  split; simpl; try done.
  - intros s b ?. by left.
  - apply dom_insert_subseteq.
  - eexists. split; [done|].
    destruct (Hev stage args) as [H1 H2].
    split; intros s Hs; apply list_elem_of_singleton in Hs;
      rewrite <- Hs in *; done.
Qed.

Lemma preserves_shouldRun stage :
  preserves runtime_ (λ s, s = stage) (shouldRun runtime_ stage).
Proof.
  intros ex. unfold shouldRun, bind.
  destruct (should_run_ ex !! stage) as [b|] eqn:Hl.
  - rewrite Hl. apply extends_refl.
  - simpl. rewrite lookup_insert_eq.
    split; simpl; try done.
    + by apply insert_subseteq.
    + intros s b Hb. destruct (decide (s = stage)) as [->|Hne].
      * rewrite lookup_insert_eq in Hb. injection Hb as <-. by right.
      * rewrite lookup_insert_ne in Hb by done. by left.
    + eexists. split; [done|].
      split; intros s Hs; apply list_elem_of_singleton in Hs; [done|].
      injection Hs as ->. split; [done|]. by apply not_elem_of_dom.
Qed.

Lemma preserves_collect_inputs P vals acc :
  preserves runtime_ P (collect_inputs vals acc).
Proof.
  revert acc. induction vals as [|v vals IH]; intros acc; simpl.
  - apply preserves_ret.
  - apply preserves_bind; [apply preserves_val_index|]. intros iv. apply IH.
Qed.

Lemma preserves_store_outputs P range stage_outs (outs : list Tensor) :
  preserves runtime_ P (store_outputs range stage_outs outs).
Proof.
  induction range as [|i range IH]; simpl.
  - apply preserves_ret.
  - apply preserves_bind; [apply preserves_vec_at|]. intros t.
    apply preserves_bind; [apply preserves_vec_at|]. intros v.
    apply preserves_bind; [apply preserves_val_assign|]. intros _. apply IH.
Qed.

Lemma preserves_run_stage stage :
  preserves runtime_ (λ s, s = stage) (run_stage runtime_ stage).
Proof.
  unfold run_stage.
  apply preserves_bind; [apply preserves_collect_inputs|]. intros ivs.
  apply preserves_bind; [apply preserves_ensure_fec|]. intros _.
  apply preserves_bind; [apply preserves_shouldRun|]. intros [|];
    by apply preserves_call_fec.
Qed.

Lemma preserves_handle_stage stage :
  preserves runtime_ (λ s, s = stage) (handle_stage runtime_ stage).
Proof.
  unfold handle_stage.
  apply preserves_bind; [apply preserves_run_stage|]. intros outs.
  apply preserves_store_outputs.
Qed.

Lemma preserves_sendRecv_team P sender_rank members t :
  preserves runtime_ P (sendRecv_team runtime_ sender_rank members t).
Proof.
  revert t. induction members as [|m members IH]; intros t; simpl.
  - apply preserves_ret.
  - apply preserves_bind; [apply preserves_do_sendRecv|]. intros t'. apply IH.
Qed.

Lemma preserves_perform P communications t :
  preserves runtime_ P (perform runtime_ communications t).
Proof.
  revert t. induction communications as [|d ds IH]; intros t; simpl.
  - apply preserves_ret.
  - apply preserves_bind; [apply preserves_sendRecv_team|]. intros t'. apply IH.
Qed.

Lemma preserves_handle_comm P c : preserves runtime_ P (handle_comm runtime_ c).
Proof.
  unfold handle_comm.
  apply preserves_bind; [apply preserves_lift|]. intros ds.
  apply preserves_bind; [apply preserves_val_at|]. intros iv.
  apply preserves_bind; [apply preserves_toTensor|]. intros t.
  apply preserves_bind; [apply preserves_perform|]. intros t'.
  apply preserves_val_assign.
Qed.

Lemma preserves_handle n :
  preserves runtime_ (λ s, n = NStage s) (handle runtime_ n).
Proof.
  destruct n as [stage|c]; simpl.
  - eapply preserves_weaken; [|apply preserves_handle_stage].
    by intros s ->.
  - apply preserves_handle_comm.
Qed.

Lemma preserves_traverse nodes :
  preserves runtime_ (λ s, NStage s ∈ nodes) (traverse runtime_ nodes).
Proof.
  induction nodes as [|n nodes IH]; simpl.
  - apply preserves_ret.
  - apply preserves_bind.
    + eapply preserves_weaken; [|apply preserves_handle].
      intros s ->. by left.
    + intros _. eapply preserves_weaken; [|apply IH].
      intros s ?. by right.
Qed.

Lemma preserves_bind_inputs P range ins :
  preserves runtime_ P (bind_inputs runtime_ range ins).
Proof.
  induction range as [|i range IH]; simpl.
  - apply preserves_ret.
  - apply preserves_bind; [apply preserves_vec_at|]. intros iv.
    apply preserves_bind; [apply preserves_vec_at|]. intros v.
    apply preserves_bind; [apply preserves_val_assign|]. intros _. apply IH.
Qed.

Lemma preserves_collect_outputs P vals outs :
  preserves runtime_ P (collect_outputs vals outs).
Proof.
  revert outs. induction vals as [|v vals IH]; intros outs; simpl.
  - apply preserves_ret.
  - apply preserves_bind; [apply preserves_val_index|]. intros iv.
    apply preserves_bind; [apply preserves_toTensor|]. intros t. apply IH.
Qed.

Lemma preserves_runWithInput ins :
  preserves runtime_ (λ s, NStage s ∈ traversal (pipeline_ runtime_))
    (runWithInput runtime_ ins).
Proof.
  unfold runWithInput.
  destruct (negb _); [apply preserves_throw|].
  apply preserves_bind; [apply preserves_bind_inputs|]. intros _.
  apply preserves_bind; [apply preserves_traverse|]. intros _.
  apply preserves_collect_outputs.
Qed.

(** Every call of the executor's interface extends the executor. *)
Lemma call_extends (ex ex' : Exec) c :
  call runtime_ ex c = Some ex' → extends runtime_ (λ _, True) ex ex'.
Proof.
  destruct c as [stage|stage|c|ins]; simpl; intros Hc.
  - pose proof (preserves_shouldRun stage ex) as H.
    destruct (shouldRun runtime_ stage ex); simplify_eq/=;
      eapply extends_weaken; eauto.
  - pose proof (preserves_handle_stage stage ex) as H.
    destruct (handle_stage runtime_ stage ex); simplify_eq/=;
      eapply extends_weaken; eauto.
  - pose proof (preserves_handle_comm (λ _, True) c ex) as H.
    destruct (handle_comm runtime_ c ex); by simplify_eq/=.
  - pose proof (preserves_runWithInput ins ex) as H.
    destruct (runWithInput runtime_ ins ex); simplify_eq/=;
      eapply extends_weaken; eauto.
Qed.

Lemma calls_extends cs : ∀ (ex ex' : Exec),
  calls runtime_ ex cs = Some ex' → extends runtime_ (λ _, True) ex ex'.
Proof.
  induction cs as [|c cs IH]; intros ex ex' Hcs; simpl in Hcs.
  - injection Hcs as <-. apply extends_refl.
  - destruct (call runtime_ ex c) as [ex1|] eqn:Hc; [|done].
    eapply extends_trans; [by eapply call_extends|by apply IH].
Qed.

(** The membership cache of a reachable executor agrees with the meshes. *)
Lemma reachable_cache (ex : Exec) stage b :
  reachable runtime_ ex → should_run_ ex !! stage = Some b →
  b = in_mesh runtime_ stage.
Proof.
  intros (c0 & cs & Hcs) Hb.
  apply calls_extends in Hcs.
  destruct (ext_should_run_new _ _ _ _ Hcs _ _ Hb) as [H|]; [|done].
  simpl in H. by rewrite lookup_empty in H.
Qed.

End Frame.

(** ** Closed forms *)

Section ClosedForms.

Context {Tensor Runner Comm : Type}.
Variable runtime_ : MultiDeviceRuntime Tensor Runner Comm.

Abbreviation Exec := (PipelineExecutor Tensor Runner Comm).

Lemma set_vals_id (ex : Exec) : set_vals (val_to_IValue_ ex) ex = ex.
Proof. by destruct ex. Qed.

Lemma shouldRun_cached stage b (ex : Exec) :
  should_run_ ex !! stage = Some b → shouldRun runtime_ stage ex = Ok b ex.
Proof. intros Hb. unfold shouldRun, bind. by rewrite !Hb. Qed.

Lemma shouldRun_first stage (ex : Exec) :
  should_run_ ex !! stage = None →
  shouldRun runtime_ stage ex
  = Ok (in_mesh runtime_ stage)
      (set_should_run (<[stage := in_mesh runtime_ stage]> (should_run_ ex))
         (log (EvMeshCount stage) ex)).
Proof. intros Hb. unfold shouldRun, bind. rewrite Hb. simpl. by rewrite lookup_insert_eq. Qed.

Lemma read_or_default_touch (m : gmap nat (IValue Tensor)) v w :
  read_or_default (touch m v) w = read_or_default m w.
Proof.
  unfold read_or_default, touch. destruct (m !! v) eqn:Hv; [done|].
  destruct (decide (v = w)) as [->|Hne].
  - by rewrite lookup_insert_eq, Hv.
  - by rewrite lookup_insert_ne.
Qed.

Lemma collect_inputs_closed vals : ∀ acc (ex : Exec),
  collect_inputs vals acc ex
  = Ok (acc ++ map (read_or_default (val_to_IValue_ ex)) vals)
      (set_vals (foldl touch (val_to_IValue_ ex) vals) ex).
Proof.
  induction vals as [|v vals IH]; intros acc ex; simpl.
  - by rewrite app_nil_r, set_vals_id.
  - assert (touch (val_to_IValue_ ex) v
            = match val_to_IValue_ ex !! v with
              | Some _ => val_to_IValue_ ex
              | None => <[v:=IVNone]> (val_to_IValue_ ex)
              end) as Htouch by done.
    unfold bind, val_index, read_or_default at 1.
    destruct (val_to_IValue_ ex !! v) as [iv|] eqn:Hv; rewrite IH; simpl.
    + by rewrite Htouch, <- app_assoc.
    + rewrite <- app_assoc. simpl. f_equal.
      * do 2 f_equal. apply map_ext. intros w.
        rewrite <- Htouch. apply read_or_default_touch.
      * by rewrite Htouch.
Qed.

Lemma set_vals_set_vals m1 m2 (ex : Exec) :
  set_vals m2 (set_vals m1 ex) = set_vals m2 ex.
Proof. done. Qed.

Lemma store_outputs_closed (stage_outs : list nat) (outs : list Tensor) n :
  ∀ i (ex : Exec), i + n = length stage_outs →
  store_outputs (seq i n) stage_outs outs ex
  = (if length outs - i <? n then Fatal OutOfRange else Ok tt)
      (set_vals (bind_tensors (val_to_IValue_ ex)
                   (zip (drop i stage_outs) (drop i outs))) ex).
Proof.
  induction n as [|n IH]; intros i ex Hlen; simpl.
  - rewrite drop_ge by lia. simpl. by rewrite set_vals_id.
  - unfold bind, vec_at.
    destruct (outs !! i) as [t|] eqn:Ht; simpl.
    + destruct (lookup_lt_is_Some_2 stage_outs i) as [v Hv]; [lia|].
      rewrite Hv. simpl. rewrite IH by lia. simpl.
      rewrite (drop_S _ _ _ Hv), (drop_S _ _ _ Ht). simpl.
      apply lookup_lt_Some in Ht.
      replace (length outs - i) with (S (length outs - S i)) by lia.
      done.
    + apply lookup_ge_None in Ht.
      rewrite (drop_ge outs) by done. rewrite zip_with_nil_r. simpl.
      rewrite set_vals_id.
      by replace (length outs - i) with 0 by lia.
Qed.

(** [run_stage] always reaches the runner: absent inputs are read as the
    default IValue, and the last call recorded is the runner's, on the
    arguments read. *)
Lemma run_stage_ok stage (ex : Exec) :
  ∃ outs ex1 (b : bool),
    run_stage runtime_ stage ex = Ok outs ex1 ∧
    should_run_ ex1 !! stage = Some b ∧
    is_Some (fec_ ex1 !! stage) ∧
    val_to_IValue_ ex1
    = foldl touch (val_to_IValue_ ex) (stage_inputs (stages (pipeline_ runtime_) stage)) ∧
    last (trace ex1)
    = Some ((if b then EvRunFusion else EvAllocOutputSpace) stage
              (map (read_or_default (val_to_IValue_ ex))
                 (stage_inputs (stages (pipeline_ runtime_) stage)))).
Proof.
  unfold run_stage, bind at 1. rewrite collect_inputs_closed. simpl.
  set (ex1 := set_vals (foldl touch _ _) ex).
  set (args := map (read_or_default _) _).
  assert (∃ ex2, ensure_fec runtime_ stage ex1 = Ok () ex2 ∧
            is_Some (fec_ ex2 !! stage) ∧
            should_run_ ex2 = should_run_ ex1 ∧
            val_to_IValue_ ex2 = val_to_IValue_ ex1) as (ex2 & Hens & Hf2 & Hs2 & Hv2).
  { unfold ensure_fec. destruct (fec_ ex1 !! stage) eqn:Hl.
    - exists ex1. by rewrite Hl.
    - eexists. split; [done|]. simpl. by rewrite lookup_insert_eq. }
  assert (∃ b ex3, shouldRun runtime_ stage ex2 = Ok b ex3 ∧
            should_run_ ex3 !! stage = Some b ∧
            fec_ ex3 = fec_ ex2 ∧
            val_to_IValue_ ex3 = val_to_IValue_ ex2) as (b & ex3 & Hsr & Hb & Hf3 & Hv3).
  { destruct (should_run_ ex2 !! stage) as [b|] eqn:Hl.
    - exists b, ex2. by rewrite (shouldRun_cached _ _ _ Hl).
    - do 2 eexists. rewrite (shouldRun_first _ _ Hl). split; [done|].
      simpl. by rewrite lookup_insert_eq. }
  unfold bind. rewrite Hens, Hsr.
  destruct Hf2 as [r Hr]. rewrite <- Hf3 in Hr.
  assert (∀ f ev, ∃ outs ex4,
            call_fec stage f ev args ex3 = Ok outs ex4 ∧
            should_run_ ex4 !! stage = Some b ∧
            is_Some (fec_ ex4 !! stage) ∧
            val_to_IValue_ ex4 = val_to_IValue_ ex3 ∧
            last (trace ex4) = Some (ev stage args)) as Hcall.
  { intros f ev. unfold call_fec. rewrite Hr.
    destruct (f r args) as [outs r'].
    do 2 eexists. split; [done|]. simpl.
    rewrite lookup_insert_eq, last_snoc. eauto. }
  destruct b.
  - destruct (Hcall (runFusionWithInputs runtime_) EvRunFusion)
      as (outs & ex4 & -> & ? & ? & Hv4 & ?).
    exists outs, ex4, true. rewrite Hv4, Hv3, Hv2. done.
  - destruct (Hcall (allocOutputSpace runtime_) EvAllocOutputSpace)
      as (outs & ex4 & -> & ? & ? & Hv4 & ?).
    exists outs, ex4, false. rewrite Hv4, Hv3, Hv2. done.
Qed.

(** [handle_stage] in terms of what the runner returned. *)
Lemma handle_stage_closed stage (ex : Exec) :
  ∃ outs ex1,
    run_stage runtime_ stage ex = Ok outs ex1 ∧
    handle_stage runtime_ stage ex
    = (if length outs <? length (stage_outputs (stages (pipeline_ runtime_) stage))
       then Fatal OutOfRange else Ok tt)
        (set_vals (bind_tensors (val_to_IValue_ ex1)
                     (zip (stage_outputs (stages (pipeline_ runtime_) stage)) outs))
           ex1).
Proof.
  destruct (run_stage_ok stage ex) as (outs & ex1 & b & Hrun & _).
  exists outs, ex1. split; [done|].
  unfold handle_stage, bind. rewrite Hrun.
  rewrite store_outputs_closed by done.
  by rewrite Nat.sub_0_r.
Qed.

Lemma set_comm_trace_id (ex : Exec) :
  set_comm (comm_ ex) (set_trace (trace ex ++ []) ex) = ex.
Proof. destruct ex. unfold set_comm, set_trace. simpl. by rewrite app_nil_r. Qed.

Lemma sendRecv_team_closed sender_rank members : ∀ t (ex : Exec),
  sendRecv_team runtime_ sender_rank members t ex
  = let '(t', c', evs) := team_transfer runtime_ sender_rank members t (comm_ ex) in
    Ok t' (set_comm c' (set_trace (trace ex ++ evs) ex)).
Proof.
  induction members as [|m members IH]; intros t ex; simpl.
  - unfold ret. by rewrite set_comm_trace_id.
  - unfold bind, do_sendRecv.
    destruct (sendRecv runtime_ (comm_ ex) m sender_rank t) as [t1 c1].
    rewrite IH. simpl.
    destruct (team_transfer runtime_ sender_rank members t1 c1) as [[t2 c2] evs].
    unfold set_comm, set_trace. simpl. by rewrite <- app_assoc.
Qed.

Lemma perform_closed communications : ∀ t (ex : Exec),
  perform runtime_ communications t ex
  = let '(t', c', evs) := transfer runtime_ communications t (comm_ ex) in
    Ok t' (set_comm c' (set_trace (trace ex ++ evs) ex)).
Proof.
  induction communications as [|d ds IH]; intros t ex; simpl.
  - unfold ret. by rewrite set_comm_trace_id.
  - unfold bind. rewrite sendRecv_team_closed.
    destruct (team_transfer runtime_ (root d) (team d) t (comm_ ex)) as [[t1 c1] evs1].
    rewrite IH. simpl.
    destruct (transfer runtime_ ds t1 c1) as [[t2 c2] evs2].
    unfold set_comm, set_trace. simpl. by rewrite app_assoc.
Qed.

Lemma team_transfer_calls sender_rank members : ∀ t (c : Comm),
  sendRecv_calls (team_transfer runtime_ sender_rank members t c).2
  = map (λ member, (member, sender_rank)) members.
Proof.
  induction members as [|m members IH]; intros t c; simpl; [done|].
  destruct (sendRecv runtime_ c m sender_rank t) as [t1 c1].
  specialize (IH t1 c1).
  destruct (team_transfer runtime_ sender_rank members t1 c1) as [[t2 c2] evs].
  simpl in *. unfold sendRecv_calls in *. simpl. by rewrite IH.
Qed.

Lemma team_transfer_length sender_rank members t (c : Comm) :
  length (team_transfer runtime_ sender_rank members t c).2 = length members.
Proof.
  revert t c. induction members as [|m members IH]; intros t c; simpl; [done|].
  destruct (sendRecv runtime_ c m sender_rank t) as [t1 c1].
  specialize (IH t1 c1).
  destruct (team_transfer runtime_ sender_rank members t1 c1) as [[t2 c2] evs].
  simpl in *. by rewrite IH.
Qed.

(** The Communicator calls of a transfer: one per team member, root
    included, descriptor after descriptor. *)
Lemma transfer_calls communications : ∀ t (c : Comm),
  sendRecv_calls (transfer runtime_ communications t c).2
  = concat (map team_pairs communications).
Proof.
  induction communications as [|d ds IH]; intros t c; simpl; [done|].
  pose proof (team_transfer_calls (root d) (team d) t c) as Hd.
  destruct (team_transfer runtime_ (root d) (team d) t c) as [[t1 c1] evs1].
  specialize (IH t1 c1).
  destruct (transfer runtime_ ds t1 c1) as [[t2 c2] evs2].
  simpl in *. unfold sendRecv_calls in *.
  by rewrite omap_app, Hd, IH.
Qed.

(** Nothing but Communicator calls is recorded during a transfer. *)
Lemma transfer_length communications : ∀ t (c : Comm),
  length (transfer runtime_ communications t c).2
  = length (concat (map team_pairs communications)).
Proof.
  induction communications as [|d ds IH]; intros t c; simpl; [done|].
  pose proof (team_transfer_length (root d) (team d) t c) as Hd.
  destruct (team_transfer runtime_ (root d) (team d) t c) as [[t1 c1] evs1].
  specialize (IH t1 c1).
  destruct (transfer runtime_ ds t1 c1) as [[t2 c2] evs2].
  simpl in *. unfold team_pairs at 1.
  by rewrite !length_app, length_map, Hd, IH.
Qed.

Lemma handle_comm_closed c (ex : Exec) ds t :
  lower (mesh_ranks runtime_ (comm_in c)) (mesh_ranks runtime_ (comm_out c)) = Done ds →
  val_to_IValue_ ex !! comm_in c = Some (IVTensor t) →
  handle_comm runtime_ c ex
  = let '(t', c', evs) := transfer runtime_ ds t (comm_ ex) in
    Ok tt (set_vals (<[comm_out c := IVTensor t']> (val_to_IValue_ ex))
             (set_comm c' (set_trace (trace ex ++ evs) ex))).
Proof.
  intros Hds Ht. unfold handle_comm, bind at 1. rewrite Hds. simpl.
  unfold bind at 1, val_at. rewrite Ht. simpl.
  unfold bind at 1, ret. unfold bind. rewrite perform_closed.
  by destruct (transfer runtime_ ds t (comm_ ex)) as [[t' c'] evs].
Qed.

End ClosedForms.

(** ** Teams of the lowering *)

Lemma sliced_team q r R srcs : ∀ i d,
  d ∈ sliced q r R i srcs → team d = root d :: extra_receivers d.
Proof.
  induction srcs as [|src srcs IH]; intros i d Hd; simpl in Hd.
  - by apply elem_of_nil in Hd.
  - apply elem_of_cons in Hd as [->|Hd]; [done|]. by eapply IH.
Qed.

Lemma team_pairs_length (ds : list SendRecvDescriptor) :
  (∀ d, d ∈ ds → team d = root d :: extra_receivers d) →
  length (concat (map team_pairs ds))
  = length ds + length (concat (map extra_receivers ds)).
Proof.
  induction ds as [|d ds IH]; intros Hds; simpl; [done|].
  rewrite !length_app, IH by (intros; apply Hds; by right).
  unfold team_pairs. rewrite length_map, (Hds d) by by left. simpl. lia.
Qed.

Lemma team_pairs_self (ds : list SendRecvDescriptor) d :
  d ∈ ds → team d = root d :: extra_receivers d →
  (root d, root d) ∈ concat (map team_pairs ds).
Proof.
  intros Hd Ht. apply list_elem_of_In, in_concat. exists (team_pairs d). split.
  - apply in_map. by apply list_elem_of_In.
  - unfold team_pairs. rewrite Ht. by left.
Qed.

(** ** Runs and caches *)

Section Runs.

Context {Tensor Runner Comm : Type}.
Variable runtime_ : MultiDeviceRuntime Tensor Runner Comm.

Abbreviation Exec := (PipelineExecutor Tensor Runner Comm).

Lemma bind_ok_inv {A B} (c : M A) (k : A → M B) (ex ex' : Exec) b :
  bind c k ex = Ok b ex' → ∃ a ex1, c ex = Ok a ex1 ∧ k a ex1 = Ok b ex'.
Proof.
  unfold bind. destruct (c ex) as [a ex1| |]; [|done..]. eauto.
Qed.

Lemma preserves_ok {A} P (c : M A) (ex ex' : Exec) a :
  preserves runtime_ P c → c ex = Ok a ex' → extends runtime_ P ex ex'.
Proof. intros Hc Hok. specialize (Hc ex). by rewrite Hok in Hc. Qed.

Lemma preserves_after {A} P (c : M A) (ex ex' : Exec) :
  preserves runtime_ P c → after (c ex) = Some ex' → extends runtime_ P ex ex'.
Proof.
  intros Hc Hok. specialize (Hc ex).
  destruct (c ex); simpl in Hok; by simplify_eq.
Qed.

Lemma in_mesh_decide stage :
  in_mesh runtime_ stage
  = bool_decide (rankToDiD runtime_ (rank runtime_)
                   ∈ mesh (stages (pipeline_ runtime_) stage)).
Proof.
  pose proof (in_mesh_spec runtime_ stage) as H.
  destruct (in_mesh runtime_ stage); symmetry.
  - apply bool_decide_eq_true. by apply H.
  - apply bool_decide_eq_false. intros Hin. by apply H in Hin.
Qed.

(** Once a stage has been handled, both caches hold it. *)
Lemma handle_stage_caches stage (ex ex' : Exec) :
  after (handle_stage runtime_ stage ex) = Some ex' →
  stage ∈ dom (fec_ ex') ∧ stage ∈ dom (should_run_ ex').
Proof.
  destruct (run_stage_ok runtime_ stage ex) as (outs & ex1 & b & Hrun & Hb & Hf & _).
  destruct (handle_stage_closed runtime_ stage ex) as (outs' & ex1' & Hrun' & ->).
  rewrite Hrun in Hrun'. injection Hrun' as <- <-.
  intros Hafter.
  assert (ex' = set_vals (bind_tensors (val_to_IValue_ ex1)
            (zip (stage_outputs (stages (pipeline_ runtime_) stage)) outs)) ex1) as ->.
  { destruct (length outs <? _); simpl in Hafter; by simplify_eq. }
  simpl. split; apply elem_of_dom; eauto.
Qed.

Lemma traverse_caches nodes : ∀ (ex ex' : Exec),
  traverse runtime_ nodes ex = Ok tt ex' →
  ∀ s, NStage s ∈ nodes → s ∈ dom (fec_ ex') ∧ s ∈ dom (should_run_ ex').
Proof.
  induction nodes as [|n nodes IH]; intros ex ex' Hok s Hs; simpl in Hok.
  - by apply elem_of_nil in Hs.
  - apply bind_ok_inv in Hok as ([] & ex1 & Hn & Hrest).
    apply elem_of_cons in Hs as [<-|Hs]; [|by eapply IH].
    simpl in Hn.
    destruct (handle_stage_caches s ex ex1) as [Hf Hr]; [by rewrite Hn|].
    pose proof (preserves_ok _ _ _ _ _ (preserves_traverse runtime_ nodes) Hrest) as Hext.
    split.
    + by apply (ext_fec _ _ _ _ Hext).
    + apply elem_of_dom in Hr as [b Hb]. apply elem_of_dom. exists b.
      by eapply lookup_weaken, ext_should_run.
Qed.

Lemma bind_inputs_dom ins n : ∀ i (ex ex' : Exec),
  bind_inputs runtime_ (seq i n) ins ex = Ok tt ex' →
  ∀ k v, i ≤ k < i + n → inputs (pipeline_ runtime_) !! k = Some v →
  v ∈ dom (val_to_IValue_ ex').
Proof.
  induction n as [|n IH]; intros i ex ex' Hok k v Hk Hv; simpl in Hok; [lia|].
  apply bind_ok_inv in Hok as (iv & ex1 & Hiv & Hok).
  apply bind_ok_inv in Hok as (w & ex2 & Hw & Hok).
  apply bind_ok_inv in Hok as ([] & ex3 & Hassign & Hok).
  destruct (decide (k = i)) as [->|Hne].
  - unfold vec_at in Hw. rewrite Hv in Hw. injection Hw as <- <-.
    injection Hassign as <-.
    pose proof (preserves_ok (λ _, True) _ _ _ _
                  (preserves_bind_inputs runtime_ _ _ _) Hok) as Hext.
    apply (ext_vals _ _ _ _ Hext). simpl.
    apply elem_of_dom. rewrite lookup_insert_eq. eauto.
  - eapply IH; [exact Hok| |exact Hv]. lia.
Qed.

Lemma collect_outputs_dom vals : ∀ outs outs' (ex ex' : Exec),
  collect_outputs vals outs ex = Ok outs' ex' →
  ∀ v, v ∈ vals → v ∈ dom (val_to_IValue_ ex').
Proof.
  induction vals as [|w vals IH]; intros outs outs' ex ex' Hok v Hv; simpl in Hok.
  - by apply elem_of_nil in Hv.
  - apply bind_ok_inv in Hok as (iv & ex1 & Hiv & Hok).
    apply bind_ok_inv in Hok as (t & ex2 & Ht & Hok).
    apply elem_of_cons in Hv as [->|Hv]; [|by eapply IH].
    pose proof (preserves_ok (λ _, True) _ _ _ _
                  (preserves_collect_outputs runtime_ _ _ _) Hok) as Hext.
    apply (ext_vals _ _ _ _ Hext).
    destruct iv; try done. injection Ht as <- <-.
    unfold val_index in Hiv.
    destruct (val_to_IValue_ ex !! w) eqn:Hw; simplify_eq.
    apply elem_of_dom. eauto.
Qed.

(** When every stage a computation may touch is already cached, it neither
    constructs a runner nor computes a membership. *)
Lemma cached_quiet (P : nat → Prop) (ex ex' : Exec) :
  extends runtime_ P ex ex' →
  (∀ s, P s → s ∈ dom (fec_ ex) ∧ s ∈ dom (should_run_ ex)) →
  ∃ new, trace ex' = trace ex ++ new ∧
    ∀ e, e ∈ new → is_construction e = false ∧ is_mesh_count e = false.
Proof.
  intros [_ _ _ _ (new & Htr & Hf & Hm)] Hcached.
  exists new. split; [done|]. intros e He.
  destruct e as [s|s| | |]; simpl; try done.
  - destruct (Hm s He) as [HP Hn]. by destruct (Hcached s HP).
  - destruct (Hf s He) as [HP Hn]. by destruct (Hcached s HP).
Qed.

End Runs.

(** * The statements of the specification *)

(** ** Communication lowering *)

(** C1.  For a non-empty sender list [S] and a receiver list [R], lowering
    succeeds and yields one descriptor per sender, in sender order; a
    descriptor's team is its root followed by its extra receivers; the extra
    receivers of sender [i] are the contiguous slice of [R] that starts after
    the slices of the earlier senders and has [|R| div |S|] elements, plus one
    when [i < |R| mod |S|] (possibly none at all); and the slices, put end to
    end in sender order, are [R] itself: every receiver position occurs in
    exactly one of them. *)
Theorem lower_partition (senders receivers : list RankType) :
  senders ≠ [] →
  ∃ ds,
    lower senders receivers = Done ds ∧
    map root ds = senders ∧
    (∀ i d, ds !! i = Some d →
       team d = root d :: extra_receivers d ∧
       extra_receivers d
       = take (nbr_dests (length receivers / length senders) (length receivers mod length senders) i)
           (drop (slice_start (length receivers / length senders) (length receivers mod length senders) i) receivers) ∧
       length (extra_receivers d)
       = length receivers / length senders + (if i <? length receivers mod length senders then 1 else 0)) ∧
    concat (map extra_receivers ds) = receivers.
Proof.
  intros HS.
  assert (length senders ≠ 0) as Hn by (destruct senders; simpl; [done|lia]).
  pose proof (slice_start_end (length senders) (length receivers) Hn) as Hend.
  pose proof (lower_sliced senders receivers HS) as Hlow.
  remember (length receivers / length senders) as q eqn:Hq.
  remember (length receivers mod length senders) as r eqn:Hr.
  exists (sliced q r receivers 0 senders). split; [done|].
  split; [apply sliced_roots|]. split.
  - intros i d Hd.
    pose proof (lookup_lt_Some _ _ _ Hd) as Hi. rewrite sliced_length in Hi.
    destruct (sliced_lookup _ _ _ _ _ _ _ Hd) as (src & _ & ->). simpl.
    split; [done|]. split; [done|].
    unfold extra_receivers. simpl.
    rewrite length_take, length_drop.
    pose proof (slice_start_mono q r (S i) (length senders) Hi) as Hm.
    rewrite slice_start_S, Hend in Hm.
    unfold nbr_dests in *. lia.
  - subst q r. by apply sliced_covers.
Qed.

Lemma lower_partition_witness :
  [10%Z; 20%Z] ≠ [] ∧
  ∃ ds,
    lower [10%Z; 20%Z] [1%Z; 2%Z; 3%Z] = Done ds ∧
    map root ds = [10%Z; 20%Z] ∧
    (∀ i d, ds !! i = Some d →
       team d = root d :: extra_receivers d ∧
       extra_receivers d
       = take (nbr_dests (3 / 2) (3 mod 2) i)
           (drop (slice_start (3 / 2) (3 mod 2) i) [1%Z; 2%Z; 3%Z]) ∧
       length (extra_receivers d) = 3 / 2 + (if i <? 3 mod 2 then 1 else 0)) ∧
    concat (map extra_receivers ds) = [1%Z; 2%Z; 3%Z].
Proof.
  split; [discriminate|].
  apply (lower_partition [10%Z; 20%Z] [1%Z; 2%Z; 3%Z]). discriminate.
Defined.

(** ** Transfer execution *)

Section Transfer.

Context {Tensor Runner Comm : Type}.
Variable runtime_ : MultiDeviceRuntime Tensor Runner Comm.

Abbreviation senders_of c := (mesh_ranks runtime_ (comm_in c)).
Abbreviation receivers_of c := (mesh_ranks runtime_ (comm_out c)).

(** With a sender and a tensor to send, [handle] on an edge runs to the end:
    it performs the transfer of the lowered descriptors and binds the
    consumer value. *)
Lemma handle_comm_ok c (ex : PipelineExecutor Tensor Runner Comm) t :
  senders_of c ≠ [] →
  val_to_IValue_ ex !! comm_in c = Some (IVTensor t) →
  ∃ ds t' c' evs,
    lower (senders_of c) (receivers_of c) = Done ds ∧
    ds = sliced (length (receivers_of c) / length (senders_of c))
           (length (receivers_of c) mod length (senders_of c))
           (receivers_of c) 0 (senders_of c) ∧
    transfer runtime_ ds t (comm_ ex) = (t', c', evs) ∧
    handle_comm runtime_ c ex
    = Ok tt (set_vals (<[comm_out c := IVTensor t']> (val_to_IValue_ ex))
               (set_comm c' (set_trace (trace ex ++ evs) ex))).
Proof.
  intros HS Ht.
  pose proof (lower_sliced _ (receivers_of c) HS) as Hlow.
  destruct (transfer runtime_ (sliced (length (receivers_of c) / length (senders_of c))
    (length (receivers_of c) mod length (senders_of c)) (receivers_of c) 0
    (senders_of c)) t (comm_ ex)) as [[t' c'] evs] eqn:Htr.
  eexists _, t', c', evs. split; [exact Hlow|]. split; [done|]. split; [done|].
  rewrite (handle_comm_closed _ _ _ _ _ Hlow Ht). by rewrite Htr.
Qed.

(** C10.  On an edge with senders [S] (not empty) and receivers [R] whose
    producer value is bound to a tensor, [handle] invokes the Communicator
    exactly [|S| + |R|] times and records nothing else.  The descriptors have
    the senders as roots, in order, and their extra receivers put end to end
    are [R]; every team is its root followed by its extra receivers; and the
    calls are, descriptor after descriptor, one call addressed to the root
    itself (receiver rank equal to sender rank) followed by one call to each
    of its extra receivers, all with the root as sender.  The calls are
    really made: the communicator the executor is left with, the tensor bound
    to the consumer value and the recorded payloads are those obtained by
    applying [sendRecv] call after call. *)
Theorem sendRecv_call_count c (ex : PipelineExecutor Tensor Runner Comm) t :
  senders_of c ≠ [] →
  val_to_IValue_ ex !! comm_in c = Some (IVTensor t) →
  ∃ ds ex' new t',
    lower (senders_of c) (receivers_of c) = Done ds ∧
    map root ds = senders_of c ∧
    concat (map extra_receivers ds) = receivers_of c ∧
    (∀ d, d ∈ ds → team d = root d :: extra_receivers d) ∧
    handle_comm runtime_ c ex = Ok tt ex' ∧
    trace ex' = trace ex ++ new ∧
    transfer runtime_ ds t (comm_ ex) = (t', comm_ ex', new) ∧
    val_to_IValue_ ex' !! comm_out c = Some (IVTensor t') ∧
    sendRecv_calls new
    = concat (map (λ d, (root d, root d)
                        :: map (λ member, (member, root d)) (extra_receivers d))
                ds) ∧
    length new = length (senders_of c) + length (receivers_of c) ∧
    length (sendRecv_calls new) = length (senders_of c) + length (receivers_of c) ∧
    (∀ d, d ∈ ds → head (team d) = Some (root d)) ∧
    (∀ s, s ∈ senders_of c → (s, s) ∈ sendRecv_calls new).
Proof.
  intros HS Ht.
  destruct (handle_comm_ok c ex t HS Ht) as (ds & t' & c' & evs & Hlow & Hds & Htr & Hh).
  pose proof (sliced_covers _ (receivers_of c) HS) as Hcat. rewrite <- Hds in Hcat.
  assert (map root ds = senders_of c) as Hroots by (rewrite Hds; apply sliced_roots).
  assert (∀ d, d ∈ ds → team d = root d :: extra_receivers d) as Hteam.
  { intros d Hd. rewrite Hds in Hd. by eapply sliced_team. }
  pose proof (transfer_calls runtime_ ds t (comm_ ex)) as Hcalls.
  pose proof (transfer_length runtime_ ds t (comm_ ex)) as Hlen.
  rewrite Htr in Hcalls, Hlen. simpl in Hcalls, Hlen.
  pose proof (team_pairs_length ds Hteam) as Hcount.
  rewrite Hcat, <- (length_map root ds), Hroots in Hcount.
  exists ds, (set_vals (<[comm_out c := IVTensor t']> (val_to_IValue_ ex))
               (set_comm c' (set_trace (trace ex ++ evs) ex))), evs, t'.
  split; [done|]. split; [done|]. split; [done|]. split; [done|].
  split; [done|]. split; [done|]. split; [done|].
  split; [simpl; apply lookup_insert_eq|].
  split.
  { rewrite Hcalls. f_equal. apply map_ext_in. intros d Hd%list_elem_of_In.
    unfold team_pairs. by rewrite (Hteam d Hd). }
  split; [by rewrite Hlen|]. split; [by rewrite Hcalls|].
  split.
  - intros d Hd. by rewrite (Hteam d Hd).
  - intros s Hs. rewrite Hcalls. rewrite <- Hroots in Hs.
    apply list_elem_of_fmap in Hs as (d & -> & Hd).
    apply team_pairs_self; auto.
Qed.

(** C2, as the code has it.  On an edge with a sender and a tensor to send,
    [handle] makes one Communicator call for each member of each descriptor's
    team, the root included, descriptor after descriptor and in team order,
    with the descriptor's root as sender rank and the member as receiver
    rank; the call of a descriptor that comes first is the one addressed to
    its own root. *)
Theorem sendRecv_per_member c (ex : PipelineExecutor Tensor Runner Comm) t :
  senders_of c ≠ [] →
  val_to_IValue_ ex !! comm_in c = Some (IVTensor t) →
  ∃ ds ex' new,
    lower (senders_of c) (receivers_of c) = Done ds ∧
    handle_comm runtime_ c ex = Ok tt ex' ∧
    trace ex' = trace ex ++ new ∧
    length new = length (sendRecv_calls new) ∧
    sendRecv_calls new = concat (map team_pairs ds) ∧
    (∀ d, d ∈ ds → head (team_pairs d) = Some (root d, root d)).
Proof.
  intros HS Ht.
  destruct (handle_comm_ok c ex t HS Ht) as (ds & t' & c' & evs & Hlow & Hds & Htr & Hh).
  pose proof (transfer_calls runtime_ ds t (comm_ ex)) as Hcalls.
  pose proof (transfer_length runtime_ ds t (comm_ ex)) as Hlen.
  rewrite Htr in Hcalls, Hlen. simpl in Hcalls, Hlen.
  exists ds, (set_vals (<[comm_out c := IVTensor t']> (val_to_IValue_ ex))
               (set_comm c' (set_trace (trace ex ++ evs) ex))), evs.
  split; [done|]. split; [done|]. split; [done|].
  split; [by rewrite Hlen, Hcalls|]. split; [done|].
  intros d Hd. rewrite Hds in Hd. unfold team_pairs.
  by rewrite (sliced_team _ _ _ _ _ _ Hd).
Qed.

(** C5, as the code has it.  On an edge with a sender and a tensor to send,
    [handle] ends with the consumer value bound to the tensor the
    Communicator calls left, and changes no other binding.  The local rank
    plays no part: the binding is made on every rank, sender, receiver or
    neither. *)
Theorem consumer_bound_on_every_rank c (ex : PipelineExecutor Tensor Runner Comm) t :
  senders_of c ≠ [] →
  val_to_IValue_ ex !! comm_in c = Some (IVTensor t) →
  ∃ ds ex',
    lower (senders_of c) (receivers_of c) = Done ds ∧
    handle_comm runtime_ c ex = Ok tt ex' ∧
    val_to_IValue_ ex'
    = <[comm_out c := IVTensor (transfer runtime_ ds t (comm_ ex)).1.1]>
        (val_to_IValue_ ex).
Proof.
  intros HS Ht.
  destruct (handle_comm_ok c ex t HS Ht) as (ds & t' & c' & evs & Hlow & Hds & Htr & Hh).
  exists ds, (set_vals (<[comm_out c := IVTensor t']> (val_to_IValue_ ex))
               (set_comm c' (set_trace (trace ex ++ evs) ex))).
  split; [done|]. split; [done|]. by rewrite Htr.
Qed.

End Transfer.

Lemma sendRecv_call_count_witness :
  mesh_ranks (Scenario.runtime 0 1) (comm_in Scenario.edge) ≠ [] ∧
  val_to_IValue_ Scenario.produced !! comm_in Scenario.edge
  = Some (IVTensor [1%Z; 2%Z; 3%Z]) ∧
  ∃ ds ex' new t',
    lower (mesh_ranks (Scenario.runtime 0 1) (comm_in Scenario.edge))
      (mesh_ranks (Scenario.runtime 0 1) (comm_out Scenario.edge)) = Done ds ∧
    map root ds = mesh_ranks (Scenario.runtime 0 1) (comm_in Scenario.edge) ∧
    concat (map extra_receivers ds)
    = mesh_ranks (Scenario.runtime 0 1) (comm_out Scenario.edge) ∧
    (∀ d, d ∈ ds → team d = root d :: extra_receivers d) ∧
    handle_comm (Scenario.runtime 0 1) Scenario.edge Scenario.produced = Ok tt ex' ∧
    trace ex' = trace Scenario.produced ++ new ∧
    transfer (Scenario.runtime 0 1) ds [1%Z; 2%Z; 3%Z] (comm_ Scenario.produced)
    = (t', comm_ ex', new) ∧
    val_to_IValue_ ex' !! comm_out Scenario.edge = Some (IVTensor t') ∧
    sendRecv_calls new
    = concat (map (λ d, (root d, root d)
                        :: map (λ member, (member, root d)) (extra_receivers d))
                ds) ∧
    length new = 1 + 2 ∧
    length (sendRecv_calls new) = 1 + 2 ∧
    (∀ d, d ∈ ds → head (team d) = Some (root d)) ∧
    (∀ s, s ∈ mesh_ranks (Scenario.runtime 0 1) (comm_in Scenario.edge) →
          (s, s) ∈ sendRecv_calls new).
Proof.
  split; [discriminate|]. split; [vm_compute; reflexivity|].
  apply (sendRecv_call_count (Scenario.runtime 0 1) Scenario.edge
           Scenario.produced [1%Z; 2%Z; 3%Z]);
    [discriminate | vm_compute; reflexivity].
Defined.

(** The same edge, evaluated: sender 0 makes three calls, to itself, to 1 and
    to 2, and the communicator has counted three calls. *)
Example scenario_edge_calls :
  ∃ ex',
    handle_comm (Scenario.runtime 0 1) Scenario.edge Scenario.produced = Ok tt ex' ∧
    trace ex'
    = [EvSendRecv 0 0 [1; 2; 3]; EvSendRecv 1 0 [1; 2; 3];
       EvSendRecv 2 0 [1; 2; 3]]%Z ∧
    comm_ Scenario.produced = 0 ∧
    comm_ ex' = 3.
Proof. eexists. repeat split; vm_compute; reflexivity. Qed.

Lemma sendRecv_per_member_witness :
  mesh_ranks (Scenario.runtime 0 1) (comm_in Scenario.edge) ≠ [] ∧
  val_to_IValue_ Scenario.produced !! comm_in Scenario.edge
  = Some (IVTensor [1%Z; 2%Z; 3%Z]) ∧
  ∃ ds ex' new,
    lower (mesh_ranks (Scenario.runtime 0 1) (comm_in Scenario.edge))
      (mesh_ranks (Scenario.runtime 0 1) (comm_out Scenario.edge)) = Done ds ∧
    handle_comm (Scenario.runtime 0 1) Scenario.edge Scenario.produced = Ok tt ex' ∧
    trace ex' = trace Scenario.produced ++ new ∧
    length new = length (sendRecv_calls new) ∧
    sendRecv_calls new = concat (map team_pairs ds) ∧
    (∀ d, d ∈ ds → head (team_pairs d) = Some (root d, root d)).
Proof.
  split; [discriminate|]. split; [vm_compute; reflexivity|].
  apply (sendRecv_per_member (Scenario.runtime 0 1) Scenario.edge
           Scenario.produced [1%Z; 2%Z; 3%Z]);
    [discriminate | vm_compute; reflexivity].
Defined.

(** C2, as stated, fails: with sender 0 and receivers 1 and 2 the single
    team is [0; 1; 2], and the first of the three calls has the root 0 as
    its receiver. *)
Lemma transfer_addressed_to_root :
  ∃ ex',
    lower (mesh_ranks (Scenario.runtime 0 1) (comm_in Scenario.edge))
      (mesh_ranks (Scenario.runtime 0 1) (comm_out Scenario.edge))
    = Done [{| team := [0; 1; 2]%Z; root := 0%Z |}] ∧
    handle_comm (Scenario.runtime 0 1) Scenario.edge Scenario.produced = Ok tt ex' ∧
    sendRecv_calls (trace ex') = [(0, 0); (1, 0); (2, 0)]%Z ∧
    ¬ (∀ receiver_rank sender_rank,
         (receiver_rank, sender_rank) ∈ sendRecv_calls (trace ex') →
         receiver_rank ≠ sender_rank).
Proof.
  eexists. split; [vm_compute; reflexivity|].
  split; [vm_compute; reflexivity|].
  split; [vm_compute; reflexivity|].
  intros H. apply (H 0%Z 0%Z); [|reflexivity].
  vm_compute. left.
Qed.

Lemma consumer_bound_on_every_rank_witness :
  mesh_ranks (Scenario.runtime 7 1) (comm_in Scenario.edge) ≠ [] ∧
  val_to_IValue_ Scenario.produced !! comm_in Scenario.edge
  = Some (IVTensor [1%Z; 2%Z; 3%Z]) ∧
  ∃ ds ex',
    lower (mesh_ranks (Scenario.runtime 7 1) (comm_in Scenario.edge))
      (mesh_ranks (Scenario.runtime 7 1) (comm_out Scenario.edge)) = Done ds ∧
    handle_comm (Scenario.runtime 7 1) Scenario.edge Scenario.produced = Ok tt ex' ∧
    val_to_IValue_ ex'
    = <[comm_out Scenario.edge :=
          IVTensor (transfer (Scenario.runtime 7 1) ds [1%Z; 2%Z; 3%Z]
                      (comm_ Scenario.produced)).1.1]>
        (val_to_IValue_ Scenario.produced).
Proof.
  split; [discriminate|]. split; [vm_compute; reflexivity|].
  apply (consumer_bound_on_every_rank (Scenario.runtime 7 1) Scenario.edge
           Scenario.produced [1%Z; 2%Z; 3%Z]);
    [discriminate | vm_compute; reflexivity].
Defined.

(** C5, as stated, fails: rank 7 is neither the sender 0 nor one of the
    receivers 1 and 2, the consumer value is unbound before the call, and
    the call binds it. *)
Lemma consumer_bound_on_bystander :
  (rank (Scenario.runtime 7 1)
     ∉ mesh_ranks (Scenario.runtime 7 1) (comm_in Scenario.edge)) ∧
  (rank (Scenario.runtime 7 1)
     ∉ mesh_ranks (Scenario.runtime 7 1) (comm_out Scenario.edge)) ∧
  val_to_IValue_ Scenario.produced !! comm_out Scenario.edge = None ∧
  ∃ ex',
    handle_comm (Scenario.runtime 7 1) Scenario.edge Scenario.produced = Ok tt ex' ∧
    val_to_IValue_ ex' !! comm_out Scenario.edge = Some (IVTensor [1%Z; 2%Z; 3%Z]).
Proof.
  split; [apply (bool_decide_unpack _); vm_compute; exact I|].
  split; [apply (bool_decide_unpack _); vm_compute; exact I|].
  split; [vm_compute; reflexivity|].
  eexists. split; vm_compute; reflexivity.
Qed.

(** ** Stage execution *)

(** C6, as the code has it.  [handle] on a stage always obtains the runner's
    result.  If the runner returned fewer tensors than the stage declares
    outputs, the call throws [std::out_of_range], after binding the outputs
    that were returned; otherwise it succeeds, binds the declared outputs in
    declared order to the leading results and ignores any surplus. *)
Theorem stage_output_arity {Tensor Runner Comm : Type}
    (runtime_ : MultiDeviceRuntime Tensor Runner Comm) stage
    (ex : PipelineExecutor Tensor Runner Comm) :
  ∃ outs ex1,
    run_stage runtime_ stage ex = Ok outs ex1 ∧
    handle_stage runtime_ stage ex
    = (if length outs <? length (stage_outputs (stages (pipeline_ runtime_) stage))
       then Fatal OutOfRange else Ok tt)
        (set_vals (bind_tensors (val_to_IValue_ ex1)
                     (zip (stage_outputs (stages (pipeline_ runtime_) stage)) outs))
           ex1) ∧
    (is_fatal (handle_stage runtime_ stage ex) = true
     ↔ length outs < length (stage_outputs (stages (pipeline_ runtime_) stage))).
Proof.
  destruct (handle_stage_closed runtime_ stage ex) as (outs & ex1 & Hrun & Hh).
  exists outs, ex1. split; [done|]. split; [done|].
  rewrite Hh.
  destruct (Nat.ltb_spec (length outs)
              (length (stage_outputs (stages (pipeline_ runtime_) stage))));
    simpl; split; try done; lia.
Qed.

(** C6, as stated, fails in one direction: a runner that returns two tensors
    for a stage declaring one output does not make [handle] fail. *)
Lemma surplus_outputs_accepted :
  ∃ outs ex1 ex',
    run_stage (Scenario.runtime 0 2) 1 Scenario.fresh = Ok outs ex1 ∧
    length outs = 2 ∧
    length (stage_outputs (stages (pipeline_ (Scenario.runtime 0 2)) 1)) = 1 ∧
    handle_stage (Scenario.runtime 0 2) 1 Scenario.fresh = Ok tt ex' ∧
    val_to_IValue_ ex' !! 1 = Some (IVTensor [1%Z; 2%Z; 3%Z]).
Proof.
  do 3 eexists. split; [vm_compute; reflexivity|].
  repeat split; vm_compute; reflexivity.
Qed.

(** C3: the code at an unbound input.  On a fresh executor of rank 1, stage 2
    reads its input [V2], which has no binding: [handle] does not fail, the
    runner is invoked on the default IValue, and [V2] is left bound to it. *)
Theorem unbound_input_reaches_runner :
  val_to_IValue_ Scenario.fresh !! 2 = None ∧
  stage_inputs (stages (pipeline_ (Scenario.runtime 1 1)) 2) = [2] ∧
  ∃ ex',
    handle_stage (Scenario.runtime 1 1) 2 Scenario.fresh = Ok tt ex' ∧
    trace ex' = [EvMakeFEC 2; EvMeshCount 2; EvRunFusion 2 [IVNone]] ∧
    val_to_IValue_ ex' !! 2 = Some IVNone.
Proof.
  split; [vm_compute; reflexivity|]. split; [reflexivity|].
  eexists. repeat split; vm_compute; reflexivity.
Qed.

(** C7: the code at an empty sender list.  The sender count divides the
    receiver count unguarded, so lowering has no defined outcome, and neither
    has [handle] on an edge whose producer mesh is empty: no error is
    signalled. *)
Theorem lower_without_sender :
  (∀ receiver_ranks, lower [] receiver_ranks = UB) ∧
  mesh_ranks (Scenario.runtime 0 1) (comm_in Scenario.orphan_edge) = [] ∧
  handle_comm (Scenario.runtime 0 1) Scenario.orphan_edge Scenario.produced
  = Undefined.
Proof. repeat split. Qed.

(** ** Top-level execution *)

(** C9.  [runWithInput] on a list whose length is not the pipeline's number
    of inputs throws the internal assertion and leaves the executor, its
    value bindings included, exactly as it was. *)
Theorem runWithInput_arity {Tensor Runner Comm : Type}
    (runtime_ : MultiDeviceRuntime Tensor Runner Comm)
    (ins : list (IValue Tensor)) (ex : PipelineExecutor Tensor Runner Comm) :
  length ins ≠ length (inputs (pipeline_ runtime_)) →
  runWithInput runtime_ ins ex = Fatal (InternalAssert "Wrong number of inputs") ex.
Proof.
  intros Hlen. unfold runWithInput.
  by destruct (Nat.eqb_spec (length ins) (length (inputs (pipeline_ runtime_)))).
Qed.

Lemma runWithInput_arity_witness :
  length [Scenario.payload; Scenario.payload]
    ≠ length (inputs (pipeline_ (Scenario.runtime 0 1))) ∧
  runWithInput (Scenario.runtime 0 1) [Scenario.payload; Scenario.payload]
    Scenario.produced
  = Fatal (InternalAssert "Wrong number of inputs") Scenario.produced.
Proof.
  split; [discriminate|].
  apply (runWithInput_arity (Scenario.runtime 0 1)
           [Scenario.payload; Scenario.payload] Scenario.produced).
  discriminate.
Defined.

(** ** Membership resolution *)

(** C8.  On an executor reached from a fresh one through its member
    functions, [shouldRun] returns whether the local rank's device appears in
    the stage's mesh.  A first query computes the answer and caches it under
    the stage; a query for a cached stage changes nothing and computes
    nothing; and whatever calls follow, a later query returns the same value
    and leaves the executor as it finds it. *)
Theorem shouldRun_membership {Tensor Runner Comm : Type}
    (runtime_ : MultiDeviceRuntime Tensor Runner Comm) stage
    (ex : PipelineExecutor Tensor Runner Comm) :
  reachable runtime_ ex →
  ∃ ex',
    shouldRun runtime_ stage ex
    = Ok (bool_decide (rankToDiD runtime_ (rank runtime_)
                         ∈ mesh (stages (pipeline_ runtime_) stage))) ex' ∧
    (should_run_ ex !! stage = None →
     ex' = set_should_run
             (<[stage := bool_decide (rankToDiD runtime_ (rank runtime_)
                                        ∈ mesh (stages (pipeline_ runtime_) stage))]>
                (should_run_ ex))
             (log (EvMeshCount stage) ex)) ∧
    (is_Some (should_run_ ex !! stage) → ex' = ex) ∧
    should_run_ ex' !! stage
    = Some (bool_decide (rankToDiD runtime_ (rank runtime_)
                           ∈ mesh (stages (pipeline_ runtime_) stage))) ∧
    ∀ cs ex'',
      calls runtime_ ex' cs = Some ex'' →
      shouldRun runtime_ stage ex''
      = Ok (bool_decide (rankToDiD runtime_ (rank runtime_)
                           ∈ mesh (stages (pipeline_ runtime_) stage))) ex''.
Proof.
  intros Hreach. rewrite <- in_mesh_decide.
  assert (∀ ex1 : PipelineExecutor Tensor Runner Comm,
            should_run_ ex1 !! stage = Some (in_mesh runtime_ stage) →
            ∀ cs ex'', calls runtime_ ex1 cs = Some ex'' →
            shouldRun runtime_ stage ex'' = Ok (in_mesh runtime_ stage) ex'') as Hlater.
  { intros ex1 Hb cs ex'' Hcs. apply shouldRun_cached.
    eapply lookup_weaken; [exact Hb|].
    by apply (ext_should_run _ _ _ _ (calls_extends _ _ _ _ Hcs)). }
  destruct (should_run_ ex !! stage) as [b|] eqn:Hl.
  - pose proof (reachable_cache _ _ _ _ Hreach Hl) as ->.
    exists ex. rewrite (shouldRun_cached _ _ _ _ Hl).
    repeat split; try done. by apply Hlater.
  - eexists. rewrite (shouldRun_first _ _ _ Hl).
    split; [done|]. split; [done|]. split; [by intros [? ?]|].
    assert (should_run_
              (set_should_run (<[stage:=in_mesh runtime_ stage]> (should_run_ ex))
                 (log (EvMeshCount stage) ex)) !! stage
            = Some (in_mesh runtime_ stage)) as Hnew
      by (simpl; apply lookup_insert_eq).
    split; [done|]. by apply Hlater.
Qed.

Lemma shouldRun_membership_witness :
  reachable (Scenario.runtime 1 1) Scenario.fresh ∧
  ∃ ex',
    shouldRun (Scenario.runtime 1 1) 2 Scenario.fresh
    = Ok (bool_decide (rankToDiD (Scenario.runtime 1 1) (rank (Scenario.runtime 1 1))
                         ∈ mesh (stages (pipeline_ (Scenario.runtime 1 1)) 2))) ex' ∧
    (should_run_ Scenario.fresh !! 2 = None →
     ex' = set_should_run
             (<[2 := bool_decide
                       (rankToDiD (Scenario.runtime 1 1) (rank (Scenario.runtime 1 1))
                          ∈ mesh (stages (pipeline_ (Scenario.runtime 1 1)) 2))]>
                (should_run_ Scenario.fresh))
             (log (EvMeshCount 2) Scenario.fresh)) ∧
    (is_Some (should_run_ Scenario.fresh !! 2) → ex' = Scenario.fresh) ∧
    should_run_ ex' !! 2
    = Some (bool_decide
              (rankToDiD (Scenario.runtime 1 1) (rank (Scenario.runtime 1 1))
                 ∈ mesh (stages (pipeline_ (Scenario.runtime 1 1)) 2))) ∧
    ∀ cs ex'',
      calls (Scenario.runtime 1 1) ex' cs = Some ex'' →
      shouldRun (Scenario.runtime 1 1) 2 ex''
      = Ok (bool_decide
              (rankToDiD (Scenario.runtime 1 1) (rank (Scenario.runtime 1 1))
                 ∈ mesh (stages (pipeline_ (Scenario.runtime 1 1)) 2))) ex''.
Proof.
  assert (reachable (Scenario.runtime 1 1) Scenario.fresh) as Hreach
    by (exists 0, []; reflexivity).
  split; [exact Hreach|].
  exact (shouldRun_membership (Scenario.runtime 1 1) 2 Scenario.fresh Hreach).
Defined.

(** ** Repeated runs *)

(** C4, as the code has it.  [runWithInput] never clears the value bindings:
    after a successful run every global input and output, and every value
    bound before the run, is bound, and a second run starts from that store
    and only adds to it or overwrites.  Both caches persist: after the first
    run they hold every stage of the traversal, the second run keeps every
    cached membership and runner, and it constructs no runner and computes no
    membership. *)
Theorem caches_persist_store_kept {Tensor Runner Comm : Type}
    (runtime_ : MultiDeviceRuntime Tensor Runner Comm)
    (ins1 ins2 : list (IValue Tensor)) (outs1 : list Tensor)
    (ex0 ex1 ex2 : PipelineExecutor Tensor Runner Comm) :
  runWithInput runtime_ ins1 ex0 = Ok outs1 ex1 →
  after (runWithInput runtime_ ins2 ex1) = Some ex2 →
  (∀ v, v ∈ inputs (pipeline_ runtime_) ∨ v ∈ outputs (pipeline_ runtime_)
        ∨ v ∈ dom (val_to_IValue_ ex0) →
        v ∈ dom (val_to_IValue_ ex1)) ∧
  dom (val_to_IValue_ ex1) ⊆ dom (val_to_IValue_ ex2) ∧
  (∀ s, NStage s ∈ traversal (pipeline_ runtime_) →
        s ∈ dom (fec_ ex1) ∧ s ∈ dom (should_run_ ex1)) ∧
  should_run_ ex1 ⊆ should_run_ ex2 ∧
  dom (fec_ ex1) ⊆ dom (fec_ ex2) ∧
  ∃ new,
    trace ex2 = trace ex1 ++ new ∧
    ∀ e, e ∈ new → is_construction e = false ∧ is_mesh_count e = false.
Proof.
  intros Hrun1 Hrun2.
  pose proof (preserves_ok _ _ _ _ _ _ (preserves_runWithInput runtime_ ins1) Hrun1) as Hext1.
  pose proof (preserves_after _ _ _ _ _ (preserves_runWithInput runtime_ ins2) Hrun2) as Hext2.
  unfold runWithInput in Hrun1.
  destruct (Nat.eqb_spec (length ins1) (length (inputs (pipeline_ runtime_))))
    as [Hlen|]; [|done]. simpl in Hrun1.
  apply bind_ok_inv in Hrun1 as ([] & exa & Hbind & Hrun1).
  apply bind_ok_inv in Hrun1 as ([] & exb & Htrav & Hcoll).
  pose proof (preserves_ok _ _ _ _ _ _
                (preserves_traverse runtime_ _) Htrav) as Hextb.
  pose proof (preserves_ok _ (λ _, True) _ _ _ _
                (preserves_collect_outputs runtime_ _ _ _) Hcoll) as Hextc.
  assert (∀ s, NStage s ∈ traversal (pipeline_ runtime_) →
               s ∈ dom (fec_ ex1) ∧ s ∈ dom (should_run_ ex1)) as Hcached.
  { intros s Hs.
    destruct (traverse_caches runtime_ _ _ _ Htrav s Hs) as [Hf Hr]. split.
    - by apply (ext_fec _ _ _ _ Hextc).
    - apply elem_of_dom in Hr as [b Hb]. apply elem_of_dom. exists b.
      by eapply lookup_weaken, ext_should_run. }
  split; [|split; [|split; [|split; [|split]]]].
  - intros v [Hv|[Hv|Hv]].
    + apply (ext_vals _ _ _ _ Hextc), (ext_vals _ _ _ _ Hextb).
      apply list_elem_of_lookup in Hv as [k Hk].
      pose proof (lookup_lt_Some _ _ _ Hk).
      eapply (bind_inputs_dom runtime_ ins1 _ 0 _ _ Hbind k); [lia|done].
    + by eapply collect_outputs_dom.
    + by apply (ext_vals _ _ _ _ Hext1).
  - apply (ext_vals _ _ _ _ Hext2).
  - exact Hcached.
  - apply (ext_should_run _ _ _ _ Hext2).
  - apply (ext_fec _ _ _ _ Hext2).
  - by eapply cached_quiet.
Qed.

Lemma caches_persist_store_kept_witness :
  ∃ outs1 ex1 ex2,
    runWithInput (Scenario.runtime 1 1) [Scenario.payload] Scenario.fresh
    = Ok outs1 ex1 ∧
    after (runWithInput (Scenario.runtime 1 1) [IVTensor [9%Z]] ex1) = Some ex2 ∧
    (∀ v, v ∈ inputs (pipeline_ (Scenario.runtime 1 1))
          ∨ v ∈ outputs (pipeline_ (Scenario.runtime 1 1))
          ∨ v ∈ dom (val_to_IValue_ Scenario.fresh) →
          v ∈ dom (val_to_IValue_ ex1)) ∧
    dom (val_to_IValue_ ex1) ⊆ dom (val_to_IValue_ ex2) ∧
    (∀ s, NStage s ∈ traversal (pipeline_ (Scenario.runtime 1 1)) →
          s ∈ dom (fec_ ex1) ∧ s ∈ dom (should_run_ ex1)) ∧
    should_run_ ex1 ⊆ should_run_ ex2 ∧
    dom (fec_ ex1) ⊆ dom (fec_ ex2) ∧
    ∃ new,
      trace ex2 = trace ex1 ++ new ∧
      ∀ e, e ∈ new → is_construction e = false ∧ is_mesh_count e = false.
Proof.
  do 3 eexists.
  split; [vm_compute; reflexivity|].
  split; [vm_compute; reflexivity|].
  eapply (caches_persist_store_kept (Scenario.runtime 1 1)
            [Scenario.payload] [IVTensor [9%Z]] _ Scenario.fresh);
    vm_compute; reflexivity.
Defined.

(** C4, as stated, fails on its first half: after a run on rank 1 the
    executor, from which the next run starts, still binds the global input,
    both ends of the edge and the global output. *)
Lemma store_not_reset :
  ∃ outs1 ex1,
    runWithInput (Scenario.runtime 1 1) [Scenario.payload] Scenario.fresh
    = Ok outs1 ex1 ∧
    val_to_IValue_ ex1 !! 0 = Some Scenario.payload ∧
    val_to_IValue_ ex1 !! 1 = Some (IVTensor []) ∧
    val_to_IValue_ ex1 !! 2 = Some (IVTensor []) ∧
    val_to_IValue_ ex1 !! 3 = Some (IVTensor [1%Z; 2%Z; 3%Z]) ∧
    val_to_IValue_ ex1 ≠ ∅.
Proof.
  do 2 eexists. split; [vm_compute; reflexivity|].
  repeat split; try (vm_compute; reflexivity).
  intros H. apply (f_equal (λ m, m !! 0)) in H. vm_compute in H. discriminate H.
Qed.

(** * Further properties of the code *)

(** ** Stage execution, step by step *)

Section StageSteps.

Context {Tensor Runner Comm : Type}.
Variable runtime_ : MultiDeviceRuntime Tensor Runner Comm.

Abbreviation Exec := (PipelineExecutor Tensor Runner Comm).
Abbreviation inputs_of stage := (stage_inputs (stages (pipeline_ runtime_) stage)).
Abbreviation outputs_of stage := (stage_outputs (stages (pipeline_ runtime_) stage)).

Lemma call_fec_closed stage f ev args (ex : Exec) r :
  fec_ ex !! stage = Some r →
  call_fec stage f ev args ex
  = Ok (f r args).1
      (set_fec (<[stage := (f r args).2]> (fec_ ex)) (log (ev stage args) ex)).
Proof. intros Hr. unfold call_fec. rewrite Hr. by destruct (f r args). Qed.

Lemma run_stage_closed stage (ex : Exec) :
  run_stage runtime_ stage ex
  = Ok (stage_call runtime_ ex stage).1 (after_run_stage runtime_ ex stage).
Proof.
  unfold run_stage, bind at 1. rewrite collect_inputs_closed. simpl.
  unfold after_run_stage, stage_events, stage_call, stage_runner, stage_local.
  fold (stage_args runtime_ ex stage).
  unfold bind at 1, ensure_fec. simpl.
  destruct (fec_ ex !! stage) as [r0|] eqn:Hf; simpl.
  - unfold bind.
    destruct (should_run_ ex !! stage) as [b|] eqn:Hs; simpl.
    + rewrite (shouldRun_cached _ _ b) by done.
      destruct b; rewrite (call_fec_closed _ _ _ _ _ r0) by done;
        unfold set_fec, log; simpl; by rewrite (insert_id _ _ _ Hs).
    + rewrite shouldRun_first by done.
      destruct (in_mesh runtime_ stage);
        rewrite (call_fec_closed _ _ _ _ _ r0) by done;
        unfold set_fec, log; simpl; by rewrite <- app_assoc.
  - unfold bind.
    destruct (should_run_ ex !! stage) as [b|] eqn:Hs; simpl.
    + rewrite (shouldRun_cached _ _ b) by done.
      destruct b;
        rewrite (call_fec_closed _ _ _ _ _ (make_fec runtime_ stage))
          by (simpl; apply lookup_insert_eq);
        unfold set_fec, log; simpl;
        by rewrite (insert_id _ _ _ Hs), insert_insert_eq, <- app_assoc.
    + rewrite shouldRun_first by done.
      destruct (in_mesh runtime_ stage);
        rewrite (call_fec_closed _ _ _ _ _ (make_fec runtime_ stage))
          by (simpl; apply lookup_insert_eq);
        unfold set_fec, log; simpl;
        by rewrite insert_insert_eq, <- !app_assoc.
Qed.

Lemma handle_stage_full stage (ex : Exec) :
  handle_stage runtime_ stage ex
  = (if length (stage_call runtime_ ex stage).1 <? length (outputs_of stage)
     then Fatal OutOfRange else Ok tt)
      (set_vals (bind_tensors (foldl touch (val_to_IValue_ ex) (inputs_of stage))
                   (zip (outputs_of stage) (stage_call runtime_ ex stage).1))
         (after_run_stage runtime_ ex stage)).
Proof.
  unfold handle_stage, bind. rewrite run_stage_closed.
  rewrite store_outputs_closed by done. by rewrite Nat.sub_0_r.
Qed.

Lemma handle_stage_after stage (ex ex' : Exec) :
  after (handle_stage runtime_ stage ex) = Some ex' →
  ex' = set_vals (bind_tensors (foldl touch (val_to_IValue_ ex) (inputs_of stage))
                    (zip (outputs_of stage) (stage_call runtime_ ex stage).1))
          (after_run_stage runtime_ ex stage).
Proof.
  rewrite handle_stage_full.
  destruct (_ <? _); simpl; by intros [= <-].
Qed.

Lemma touch_lookup (m : gmap nat (IValue Tensor)) w v :
  touch m w !! v = if decide (v = w) then Some (read_or_default m w) else m !! v.
Proof.
  unfold touch, read_or_default.
  destruct (decide (v = w)) as [->|Hne].
  - destruct (m !! w) eqn:Hw; [by rewrite Hw|by rewrite lookup_insert_eq].
  - destruct (m !! w); [done|]. by rewrite lookup_insert_ne.
Qed.

Lemma foldl_touch_lookup vals : ∀ (m : gmap nat (IValue Tensor)) v,
  foldl touch m vals !! v
  = if decide (v ∈ vals) then Some (read_or_default m v) else m !! v.
Proof.
  induction vals as [|w vals IH]; intros m v; simpl.
  - destruct (decide (v ∈ [])) as [Hin|]; [by apply elem_of_nil in Hin|done].
  - rewrite IH, read_or_default_touch, touch_lookup.
    destruct (decide (v ∈ vals)) as [Hin|Hnin].
    + rewrite decide_True; [done|by right].
    + destruct (decide (v = w)) as [->|Hne].
      * rewrite decide_True; [done|by left].
      * rewrite decide_False; [done|]. by intros [?|?]%elem_of_cons.
Qed.

Lemma bind_tensors_notin (l : list (nat * Tensor)) : ∀ m v,
  v ∉ l.*1 → bind_tensors m l !! v = m !! v.
Proof.
  induction l as [|[w t] l IH]; intros m v Hv; simpl; [done|].
  simpl in Hv. apply not_elem_of_cons in Hv as [Hne Hv].
  unfold bind_tensors in *. simpl. rewrite IH by done.
  by rewrite lookup_insert_ne.
Qed.

Lemma bind_tensors_lookup (l : list (nat * Tensor)) : ∀ m i v t,
  NoDup l.*1 → l !! i = Some (v, t) →
  bind_tensors m l !! v = Some (IVTensor t).
Proof.
  induction l as [|[w u] l IH]; intros m i v t Hnd Hi; [done|].
  simpl in Hnd. apply NoDup_cons in Hnd as [Hw Hnd].
  destruct i as [|i]; simpl in Hi.
  - injection Hi as -> ->.
    change (bind_tensors (<[v:=IVTensor t]> m) l !! v = Some (IVTensor t)).
    rewrite bind_tensors_notin by done. apply lookup_insert_eq.
  - by apply (IH _ i).
Qed.

(** X1.  On an executor reached from a fresh one, [handle] on a stage never
    has undefined behaviour and leaves the communicator alone; it records a
    runner construction exactly when the stage has no cached runner, a
    membership computation exactly when the stage has no cached membership,
    and then exactly one runner call: [runFusionWithInputs] when the local
    device is in the stage's mesh, [allocOutputSpace] when it is not, on the
    current bindings of the stage's inputs (the default IValue for an input
    without binding). *)
Theorem handle_stage_runner_call stage (ex : Exec) :
  reachable runtime_ ex →
  ∃ ex',
    after (handle_stage runtime_ stage ex) = Some ex' ∧
    comm_ ex' = comm_ ex ∧
    trace ex'
    = trace ex
      ++ (match fec_ ex !! stage with Some _ => [] | None => [EvMakeFEC stage] end)
      ++ (match should_run_ ex !! stage with
          | Some _ => []
          | None => [EvMeshCount stage]
          end)
      ++ [(if bool_decide (rankToDiD runtime_ (rank runtime_)
                             ∈ mesh (stages (pipeline_ runtime_) stage))
           then EvRunFusion else EvAllocOutputSpace)
            stage (map (read_or_default (val_to_IValue_ ex)) (inputs_of stage))].
Proof.
  intros Hreach.
  assert (stage_local runtime_ ex stage
          = bool_decide (rankToDiD runtime_ (rank runtime_)
                           ∈ mesh (stages (pipeline_ runtime_) stage))) as Hlocal.
  { rewrite <- in_mesh_decide. unfold stage_local.
    destruct (should_run_ ex !! stage) as [b|] eqn:Hb; [|done].
    simpl. by eapply reachable_cache. }
  eexists. rewrite handle_stage_full. split.
  - by destruct (_ <? _).
  - split; [done|]. simpl. unfold stage_events. by rewrite Hlocal.
Qed.

(** X2.  [handle] on a stage changes no binding other than those of the
    stage's inputs and declared outputs: a value that is not a declared
    output keeps its binding, except that an input without binding is left
    bound to the default IValue. *)
Theorem handle_stage_store_frame stage (ex ex' : Exec) v :
  after (handle_stage runtime_ stage ex) = Some ex' →
  v ∉ outputs_of stage →
  val_to_IValue_ ex' !! v
  = if decide (v ∈ inputs_of stage)
    then Some (read_or_default (val_to_IValue_ ex) v)
    else val_to_IValue_ ex !! v.
Proof.
  intros Hafter Hv. rewrite (handle_stage_after _ _ _ Hafter). simpl.
  rewrite bind_tensors_notin; [apply foldl_touch_lookup|].
  intros Hin. apply Hv.
  apply list_elem_of_fmap in Hin as ([w t] & -> & Hin).
  by eapply elem_of_zip_l.
Qed.

(** X3.  When [handle] on a stage whose declared outputs are pairwise
    distinct succeeds, every declared output is bound to the tensor the
    runner returned at the same position. *)
Theorem handle_stage_binds_outputs stage (ex ex' : Exec) :
  handle_stage runtime_ stage ex = Ok tt ex' →
  NoDup (outputs_of stage) →
  ∃ outs ex1,
    run_stage runtime_ stage ex = Ok outs ex1 ∧
    ∀ i v, outputs_of stage !! i = Some v →
      ∃ t, outs !! i = Some t ∧ val_to_IValue_ ex' !! v = Some (IVTensor t).
Proof.
  intros Hok Hnd.
  exists (stage_call runtime_ ex stage).1, (after_run_stage runtime_ ex stage).
  split; [apply run_stage_closed|].
  rewrite handle_stage_full in Hok.
  destruct (Nat.ltb_spec (length (stage_call runtime_ ex stage).1)
              (length (outputs_of stage))) as [|Hle]; [done|].
  injection Hok as <-. intros i v Hi.
  destruct (lookup_lt_is_Some_2 (stage_call runtime_ ex stage).1 i) as [t Ht].
  { apply lookup_lt_Some in Hi. lia. }
  exists t. split; [done|]. simpl.
  apply (bind_tensors_lookup _ _ i).
  - by rewrite fst_zip.
  - apply lookup_zip_with_Some. eauto.
Qed.

End StageSteps.

Lemma handle_stage_runner_call_witness :
  reachable (Scenario.runtime 1 1) Scenario.fresh ∧
  ∃ ex',
    after (handle_stage (Scenario.runtime 1 1) 2 Scenario.fresh) = Some ex' ∧
    comm_ ex' = comm_ Scenario.fresh ∧
    trace ex'
    = trace Scenario.fresh
      ++ (match fec_ Scenario.fresh !! 2 with
          | Some _ => []
          | None => [EvMakeFEC 2]
          end)
      ++ (match should_run_ Scenario.fresh !! 2 with
          | Some _ => []
          | None => [EvMeshCount 2]
          end)
      ++ [(if bool_decide
                (rankToDiD (Scenario.runtime 1 1) (rank (Scenario.runtime 1 1))
                   ∈ mesh (stages (pipeline_ (Scenario.runtime 1 1)) 2))
           then EvRunFusion else EvAllocOutputSpace)
            2 (map (read_or_default (val_to_IValue_ Scenario.fresh))
                 (stage_inputs (stages (pipeline_ (Scenario.runtime 1 1)) 2)))].
Proof.
  assert (reachable (Scenario.runtime 1 1) Scenario.fresh) as Hreach
    by (exists 0, []; reflexivity).
  split; [exact Hreach|].
  exact (handle_stage_runner_call (Scenario.runtime 1 1) 2 Scenario.fresh Hreach).
Defined.

Lemma handle_stage_store_frame_witness :
  ∃ ex',
    after (handle_stage (Scenario.runtime 1 1) 2 Scenario.produced) = Some ex' ∧
    (2 ∉ stage_outputs (stages (pipeline_ (Scenario.runtime 1 1)) 2)) ∧
    val_to_IValue_ ex' !! 2
    = if decide (2 ∈ stage_inputs (stages (pipeline_ (Scenario.runtime 1 1)) 2))
      then Some (read_or_default (val_to_IValue_ Scenario.produced) 2)
      else val_to_IValue_ Scenario.produced !! 2.
Proof.
  eexists.
  split; [vm_compute; reflexivity|].
  split; [apply (bool_decide_unpack _); vm_compute; exact I|].
  apply (handle_stage_store_frame (Scenario.runtime 1 1) 2 Scenario.produced).
  - vm_compute; reflexivity.
  - apply (bool_decide_unpack _); vm_compute; exact I.
Defined.

Lemma handle_stage_binds_outputs_witness :
  ∃ ex',
    handle_stage (Scenario.runtime 1 1) 2 Scenario.produced = Ok tt ex' ∧
    NoDup (stage_outputs (stages (pipeline_ (Scenario.runtime 1 1)) 2)) ∧
    ∃ outs ex1,
      run_stage (Scenario.runtime 1 1) 2 Scenario.produced = Ok outs ex1 ∧
      ∀ i v, stage_outputs (stages (pipeline_ (Scenario.runtime 1 1)) 2) !! i = Some v →
        ∃ t, outs !! i = Some t ∧ val_to_IValue_ ex' !! v = Some (IVTensor t).
Proof.
  eexists.
  split; [vm_compute; reflexivity|].
  split; [apply NoDup_singleton|].
  apply (handle_stage_binds_outputs (Scenario.runtime 1 1) 2 Scenario.produced).
  - vm_compute; reflexivity.
  - apply NoDup_singleton.
Defined.

(** ** Transfer execution: failures and frame *)

Section TransferSteps.

Context {Tensor Runner Comm : Type}.
Variable runtime_ : MultiDeviceRuntime Tensor Runner Comm.

Abbreviation Exec := (PipelineExecutor Tensor Runner Comm).
Abbreviation senders_of c := (mesh_ranks runtime_ (comm_in c)).
Abbreviation receivers_of c := (mesh_ranks runtime_ (comm_out c)).

(** Every outcome of [handle] on an edge, by cases on the sender list and on
    the producer's binding. *)
Lemma handle_comm_cases c (ex : Exec) :
  (senders_of c = [] ∧ handle_comm runtime_ c ex = Undefined) ∨
  (senders_of c ≠ [] ∧ val_to_IValue_ ex !! comm_in c = None ∧
   handle_comm runtime_ c ex = Fatal OutOfRange ex) ∨
  (senders_of c ≠ [] ∧
   (∃ iv, val_to_IValue_ ex !! comm_in c = Some iv ∧ ∀ t, iv ≠ IVTensor t) ∧
   handle_comm runtime_ c ex = Fatal NotATensor ex) ∨
  (senders_of c ≠ [] ∧
   ∃ t ds t' c' evs,
     val_to_IValue_ ex !! comm_in c = Some (IVTensor t) ∧
     lower (senders_of c) (receivers_of c) = Done ds ∧
     transfer runtime_ ds t (comm_ ex) = (t', c', evs) ∧
     handle_comm runtime_ c ex
     = Ok tt (set_vals (<[comm_out c := IVTensor t']> (val_to_IValue_ ex))
                (set_comm c' (set_trace (trace ex ++ evs) ex)))).
Proof.
  destruct (senders_of c) as [|s0 ss] eqn:HS.
  - left. split; [done|]. unfold handle_comm, bind. by rewrite HS.
  - right.
    assert (senders_of c ≠ []) as Hne by by rewrite HS.
    rewrite <- HS.
    pose proof (lower_sliced _ (receivers_of c) Hne) as Hlow.
    destruct (val_to_IValue_ ex !! comm_in c) as [iv|] eqn:Hiv.
    + destruct iv as [|t|z].
      * right; left. split; [done|]. split; [by eexists|].
        unfold handle_comm, bind at 1. rewrite Hlow. simpl.
        unfold bind, val_at. by rewrite Hiv.
      * right; right. split; [done|].
        destruct (handle_comm_ok runtime_ c ex t Hne Hiv)
          as (ds & t' & c' & evs & ? & ? & ? & ?).
        by exists t, ds, t', c', evs.
      * right; left. split; [done|]. split; [by eexists|].
        unfold handle_comm, bind at 1. rewrite Hlow. simpl.
        unfold bind, val_at. by rewrite Hiv.
    + left. split; [done|]. split; [done|].
      unfold handle_comm, bind at 1. rewrite Hlow. simpl.
      unfold bind, val_at. by rewrite Hiv.
Qed.

(** X4.  On an edge with a sender whose producer value is unbound, or bound
    to something that is not a tensor, [handle] throws before any
    Communicator call and leaves the executor exactly as it was:
    [std::out_of_range] for the missing binding, the [toTensor] failure
    otherwise. *)
Theorem handle_comm_without_tensor c (ex : Exec) :
  senders_of c ≠ [] →
  (∀ t, val_to_IValue_ ex !! comm_in c ≠ Some (IVTensor t)) →
  handle_comm runtime_ c ex
  = Fatal (match val_to_IValue_ ex !! comm_in c with
           | None => OutOfRange
           | Some _ => NotATensor
           end) ex.
Proof.
  intros Hne Hnt.
  destruct (handle_comm_cases c ex)
    as [[HS _]|[(_ & Hiv & ->)|[(_ & (iv & Hiv & _) & ->)|(_ & t & ? & ? & ? & ? & Hiv & _)]]].
  - done.
  - by rewrite Hiv.
  - by rewrite Hiv.
  - by destruct (Hnt t).
Qed.

(** X5.  Whenever [handle] on an edge leaves an executor, both caches and
    every binding other than the consumer's are as before, and everything it
    recorded is a Communicator call: transfer execution never constructs or
    calls a runner and never computes a membership. *)
Theorem handle_comm_frame c (ex ex' : Exec) :
  after (handle_comm runtime_ c ex) = Some ex' →
  should_run_ ex' = should_run_ ex ∧
  fec_ ex' = fec_ ex ∧
  (∀ v, v ≠ comm_out c → val_to_IValue_ ex' !! v = val_to_IValue_ ex !! v) ∧
  ∃ new, trace ex' = trace ex ++ new ∧ length (sendRecv_calls new) = length new.
Proof.
  intros Hafter.
  assert (∃ new : list (Event Tensor),
            trace ex = trace ex ++ new ∧ length (sendRecv_calls new) = length new)
    as Hnil by (exists []; by rewrite app_nil_r).
  destruct (handle_comm_cases c ex)
    as [[_ Hh]|[(_ & _ & Hh)|[(_ & _ & Hh)|(_ & t & ds & t' & c' & evs & _ & _ & Htr & Hh)]]];
    rewrite Hh in Hafter; simpl in Hafter; try done; injection Hafter as <-;
    try done.
  simpl. split; [done|]. split; [done|]. split.
  - intros v Hv. by rewrite lookup_insert_ne.
  - exists evs. split; [done|].
    pose proof (transfer_calls runtime_ ds t (comm_ ex)) as Hcalls.
    pose proof (transfer_length runtime_ ds t (comm_ ex)) as Hlen.
    rewrite Htr in Hcalls, Hlen. simpl in *. by rewrite Hcalls, Hlen.
Qed.

End TransferSteps.

(** ** Computations that respect a relation *)

Section Respect.

Context {Tensor Runner Comm : Type}.
Variable runtime_ : MultiDeviceRuntime Tensor Runner Comm.

Abbreviation Exec := (PipelineExecutor Tensor Runner Comm).

Variable R : Exec → Exec → Prop.
Hypothesis R_refl : ∀ ex, R ex ex.
Hypothesis R_trans : ∀ ex1 ex2 ex3, R ex1 ex2 → R ex2 ex3 → R ex1 ex3.

Lemma respects_ret {A} (a : A) : respects R (ret a).
Proof using R_refl. intros ex. apply R_refl. Qed.

Lemma respects_throw {A} e : respects R (@throw _ _ _ A e).
Proof using R_refl. intros ex. apply R_refl. Qed.

Lemma respects_vec_at {A} (v : list A) i : respects R (vec_at v i).
Proof using R_refl.
  unfold vec_at. destruct (v !! i); [apply respects_ret|apply respects_throw].
Qed.

Lemma respects_toTensor (iv : IValue Tensor) : respects R (toTensor iv).
Proof using R_refl.
  destruct iv; [apply respects_throw|apply respects_ret|apply respects_throw].
Qed.

Lemma respects_bind {A B} (c : M A) (k : A → M B) :
  respects R c → (∀ a, respects R (k a)) → respects R (bind c k).
Proof using R_trans.
  intros Hc Hk ex. unfold bind. specialize (Hc ex).
  destruct (c ex) as [a ex1|e ex1|]; try done.
  specialize (Hk a ex1). destruct (k a ex1); try done; eauto.
Qed.

Lemma respects_after {A} (c : M A) (ex ex' : Exec) :
  respects R c → after (c ex) = Some ex' → R ex ex'.
Proof using Type.
  intros Hc Hafter. specialize (Hc ex).
  destruct (c ex); simpl in Hafter; by simplify_eq.
Qed.

Lemma respects_traverse nodes :
  (∀ n, n ∈ nodes → respects R (handle runtime_ n)) →
  respects R (traverse runtime_ nodes).
Proof using R_refl R_trans.
  induction nodes as [|n nodes IH]; intros Hn; simpl.
  - apply respects_ret.
  - apply respects_bind; [apply Hn; by left|].
    intros _. apply IH. intros n' ?. apply Hn. by right.
Qed.

Lemma respects_collect_outputs vals :
  (∀ v, respects R (val_index v)) →
  ∀ outs, respects R (collect_outputs vals outs).
Proof using R_refl R_trans.
  intros Hidx. induction vals as [|v vals IH]; intros outs; simpl.
  - apply respects_ret.
  - apply respects_bind; [apply Hidx|]. intros iv.
    apply respects_bind; [apply respects_toTensor|]. intros t. apply IH.
Qed.

End Respect.

Section Quiet.

Context {Tensor Runner Comm : Type}.
Variable runtime_ : MultiDeviceRuntime Tensor Runner Comm.

Abbreviation Exec := (PipelineExecutor Tensor Runner Comm).

Lemma only_store_refl (ex : Exec) : only_store ex ex.
Proof. by repeat split. Qed.

Lemma only_store_trans (ex1 ex2 ex3 : Exec) :
  only_store ex1 ex2 → only_store ex2 ex3 → only_store ex1 ex3.
Proof.
  intros (H1 & H2 & H3 & H4) (G1 & G2 & G3 & G4).
  repeat split; congruence.
Qed.

Lemma only_store_val_index v : respects (@only_store Tensor Runner Comm) (val_index v).
Proof.
  intros ex. unfold val_index.
  destruct (val_to_IValue_ ex !! v); by repeat split.
Qed.

Lemma only_store_val_assign v iv :
  respects (@only_store Tensor Runner Comm) (val_assign v iv).
Proof. intros ex. by repeat split. Qed.

Lemma only_store_bind_inputs range ins :
  respects (@only_store Tensor Runner Comm) (bind_inputs runtime_ range ins).
Proof.
  induction range as [|i range IH]; simpl.
  - apply respects_ret, only_store_refl.
  - apply respects_bind; [apply only_store_trans|
      apply respects_vec_at, only_store_refl|]. intros iv.
    apply respects_bind; [apply only_store_trans|
      apply respects_vec_at, only_store_refl|]. intros v.
    apply respects_bind; [apply only_store_trans|
      apply only_store_val_assign|]. intros _. apply IH.
Qed.

Lemma only_store_collect_outputs vals outs :
  respects (@only_store Tensor Runner Comm) (collect_outputs vals outs).
Proof.
  apply respects_collect_outputs;
    [apply only_store_refl|apply only_store_trans|apply only_store_val_index].
Qed.

(** A successful read-back changes nothing and returns, after the tensors
    already collected, the tensors bound to the values, in order. *)
Lemma collect_outputs_ok vals : ∀ outs outs' (ex ex' : Exec),
  collect_outputs vals outs ex = Ok outs' ex' →
  ex' = ex ∧
  ∃ ts, outs' = outs ++ ts ∧
    Forall2 (λ v t, val_to_IValue_ ex !! v = Some (IVTensor t)) vals ts.
Proof.
  induction vals as [|v vals IH]; intros outs outs' ex ex' Hok; simpl in Hok.
  - injection Hok as <- <-. split; [done|]. exists []. by rewrite app_nil_r.
  - apply bind_ok_inv in Hok as (iv & ex1 & Hiv & Hok).
    apply bind_ok_inv in Hok as (t & ex2 & Ht & Hok).
    destruct iv as [|t0|]; try done. injection Ht as <- <-.
    unfold val_index in Hiv.
    destruct (val_to_IValue_ ex !! v) as [iv|] eqn:Hv; [|done].
    injection Hiv as -> <-.
    destruct (IH _ _ _ _ Hok) as (-> & ts & -> & Hts).
    split; [done|]. exists (t0 :: ts). rewrite <- app_assoc. split; [done|].
    by constructor.
Qed.

Lemma sendRecv_calls_app (tr1 tr2 : list (Event Tensor)) :
  sendRecv_calls (tr1 ++ tr2) = sendRecv_calls tr1 ++ sendRecv_calls tr2.
Proof. apply omap_app. Qed.

Lemma stage_events_calls (ex : Exec) stage :
  sendRecv_calls (stage_events runtime_ ex stage) = [].
Proof.
  unfold stage_events.
  by destruct (fec_ ex !! stage), (should_run_ ex !! stage),
    (stage_local runtime_ ex stage).
Qed.

Lemma handle_calls n (ex ex' : Exec) :
  handle runtime_ n ex = Ok tt ex' →
  sendRecv_calls (trace ex')
  = sendRecv_calls (trace ex) ++ node_calls runtime_ n.
Proof.
  destruct n as [stage|c]; simpl; intros Hok.
  - assert (after (handle_stage runtime_ stage ex) = Some ex') as Hafter
      by by rewrite Hok.
    rewrite (handle_stage_after _ _ _ _ Hafter). simpl.
    by rewrite sendRecv_calls_app, stage_events_calls.
  - destruct (handle_comm_cases runtime_ c ex)
      as [[_ Hh]|[(_ & _ & Hh)|[(_ & _ & Hh)|
          (_ & t & ds & t' & c' & evs & _ & Hlow & Htr & Hh)]]];
      rewrite Hh in Hok; try done. injection Hok as <-. simpl.
    pose proof (transfer_calls runtime_ ds t (comm_ ex)) as Hcalls.
    rewrite Htr in Hcalls. simpl in Hcalls.
    unfold edge_calls. by rewrite sendRecv_calls_app, Hlow, Hcalls.
Qed.

Lemma traverse_calls nodes : ∀ (ex ex' : Exec),
  traverse runtime_ nodes ex = Ok tt ex' →
  sendRecv_calls (trace ex')
  = sendRecv_calls (trace ex) ++ schedule runtime_ nodes.
Proof.
  induction nodes as [|n nodes IH]; intros ex ex' Hok; simpl in Hok.
  - injection Hok as <-. unfold schedule. simpl. by rewrite app_nil_r.
  - apply bind_ok_inv in Hok as ([] & ex1 & Hn & Hok).
    rewrite (IH _ _ Hok), (handle_calls _ _ _ Hn).
    unfold schedule. simpl. by rewrite app_assoc.
Qed.

Lemma runWithInput_calls ins outs (ex ex' : Exec) :
  runWithInput runtime_ ins ex = Ok outs ex' →
  sendRecv_calls (trace ex')
  = sendRecv_calls (trace ex) ++ schedule runtime_ (traversal (pipeline_ runtime_)).
Proof.
  unfold runWithInput. destruct (negb _); [done|]. intros Hok.
  apply bind_ok_inv in Hok as ([] & exa & Hbind & Hok).
  apply bind_ok_inv in Hok as ([] & exb & Htrav & Hcoll).
  destruct (collect_outputs_ok _ _ _ _ _ Hcoll) as [-> _].
  rewrite (traverse_calls _ _ _ Htrav).
  pose proof (respects_after _ _ _ _ (only_store_bind_inputs _ ins)
                ltac:(by rewrite Hbind)) as (_ & _ & _ & Htr).
  by rewrite Htr.
Qed.

End Quiet.

(** ** A whole run *)

Section WholeRun.

Context {Tensor Runner Comm : Type}.

Abbreviation Exec := (PipelineExecutor Tensor Runner Comm).
Abbreviation Runtime := (MultiDeviceRuntime Tensor Runner Comm).

(** X6.  The Communicator calls of a successful run are exactly those of the
    lowered edges, edge after edge in traversal order: stages, the binding of
    the inputs and the read-back of the outputs add none. *)
Theorem run_issues_schedule (runtime_ : Runtime) ins outs (ex ex' : Exec) :
  runWithInput runtime_ ins ex = Ok outs ex' →
  sendRecv_calls (trace ex')
  = sendRecv_calls (trace ex)
    ++ concat (map (λ n, match n with
                         | NStage _ => []
                         | NComm c =>
                             match lower (mesh_ranks runtime_ (comm_in c))
                                     (mesh_ranks runtime_ (comm_out c)) with
                             | Done ds => concat (map team_pairs ds)
                             | _ => []
                             end
                         end)
                 (traversal (pipeline_ runtime_))).
Proof. apply runWithInput_calls. Qed.

Lemma schedule_ext (rt1 rt2 : Runtime) nodes :
  pipeline_ rt1 = pipeline_ rt2 →
  (∀ d, dIdToRank rt1 d = dIdToRank rt2 d) →
  schedule rt1 nodes = schedule rt2 nodes.
Proof.
  intros Hp Hd. unfold schedule. f_equal. apply map_ext. intros [stage|c]; [done|].
  simpl. unfold edge_calls, mesh_ranks. rewrite Hp.
  by rewrite !(map_ext _ _ Hd).
Qed.

(** X7.  The transfers do not depend on the rank that executes them: two
    executors over the same pipeline and the same device-to-rank mapping,
    whatever their local ranks, runners, communicators, inputs and earlier
    history, issue the same sequence of (receiver, sender) pairs in a
    successful run. *)
Theorem run_schedule_rank_independent (rt1 rt2 : Runtime)
    ins1 ins2 outs1 outs2 (ex1 ex1' ex2 ex2' : Exec) :
  pipeline_ rt1 = pipeline_ rt2 →
  (∀ d, dIdToRank rt1 d = dIdToRank rt2 d) →
  runWithInput rt1 ins1 ex1 = Ok outs1 ex1' →
  runWithInput rt2 ins2 ex2 = Ok outs2 ex2' →
  ∃ issued,
    sendRecv_calls (trace ex1') = sendRecv_calls (trace ex1) ++ issued ∧
    sendRecv_calls (trace ex2') = sendRecv_calls (trace ex2) ++ issued.
Proof.
  intros Hp Hd Hrun1 Hrun2.
  exists (schedule rt1 (traversal (pipeline_ rt1))). split.
  - by apply (runWithInput_calls _ _ _ _ _ Hrun1).
  - rewrite (runWithInput_calls _ _ _ _ _ Hrun2), <- Hp.
    f_equal. symmetry. by apply schedule_ext.
Qed.

(** X8.  The tensors a successful run returns are the final bindings of the
    pipeline's outputs, in declared order: as many tensors as outputs, and
    the executor binds each output to the tensor at its position. *)
Theorem run_returns_bound_outputs (runtime_ : Runtime) ins outs (ex ex' : Exec) :
  runWithInput runtime_ ins ex = Ok outs ex' →
  Forall2 (λ v t, val_to_IValue_ ex' !! v = Some (IVTensor t))
    (outputs (pipeline_ runtime_)) outs.
Proof.
  unfold runWithInput. destruct (negb _); [done|]. intros Hok.
  apply bind_ok_inv in Hok as ([] & exa & Hbind & Hok).
  apply bind_ok_inv in Hok as ([] & exb & Htrav & Hcoll).
  by destruct (collect_outputs_ok _ _ _ _ _ Hcoll) as (-> & ts & -> & Hts).
Qed.

End WholeRun.

Lemma run_issues_schedule_witness :
  ∃ outs ex',
    runWithInput (Scenario.runtime 1 1) [Scenario.payload] Scenario.fresh
    = Ok outs ex' ∧
    sendRecv_calls (trace ex')
    = sendRecv_calls (trace Scenario.fresh)
      ++ concat (map (λ n, match n with
                           | NStage _ => []
                           | NComm c =>
                               match lower (mesh_ranks (Scenario.runtime 1 1) (comm_in c))
                                       (mesh_ranks (Scenario.runtime 1 1) (comm_out c)) with
                               | Done ds => concat (map team_pairs ds)
                               | _ => []
                               end
                           end)
                   (traversal (pipeline_ (Scenario.runtime 1 1)))).
Proof.
  do 2 eexists. split; [vm_compute; reflexivity|].
  eapply (run_issues_schedule (Scenario.runtime 1 1) [Scenario.payload] _
            Scenario.fresh).
  vm_compute; reflexivity.
Defined.

Lemma run_schedule_rank_independent_witness :
  ∃ outs1 outs2 ex1' ex2',
    pipeline_ (Scenario.runtime 0 1) = pipeline_ (Scenario.runtime 2 1) ∧
    (∀ d, dIdToRank (Scenario.runtime 0 1) d = dIdToRank (Scenario.runtime 2 1) d) ∧
    runWithInput (Scenario.runtime 0 1) [Scenario.payload] Scenario.fresh
    = Ok outs1 ex1' ∧
    runWithInput (Scenario.runtime 2 1) [IVTensor [9%Z]] Scenario.produced
    = Ok outs2 ex2' ∧
    ∃ issued,
      sendRecv_calls (trace ex1') = sendRecv_calls (trace Scenario.fresh) ++ issued ∧
      sendRecv_calls (trace ex2') = sendRecv_calls (trace Scenario.produced) ++ issued.
Proof.
  do 4 eexists.
  split; [reflexivity|]. split; [reflexivity|].
  split; [vm_compute; reflexivity|]. split; [vm_compute; reflexivity|].
  eapply (run_schedule_rank_independent (Scenario.runtime 0 1) (Scenario.runtime 2 1)
            [Scenario.payload] [IVTensor [9%Z]] _ _ Scenario.fresh _
            Scenario.produced);
    [reflexivity | reflexivity | vm_compute; reflexivity | vm_compute; reflexivity].
Defined.

Lemma run_returns_bound_outputs_witness :
  ∃ outs ex',
    runWithInput (Scenario.runtime 1 1) [Scenario.payload] Scenario.fresh
    = Ok outs ex' ∧
    Forall2 (λ v t, val_to_IValue_ ex' !! v = Some (IVTensor t))
      (outputs (pipeline_ (Scenario.runtime 1 1))) outs.
Proof.
  do 2 eexists. split; [vm_compute; reflexivity|].
  eapply (run_returns_bound_outputs (Scenario.runtime 1 1) [Scenario.payload] _
            Scenario.fresh).
  vm_compute; reflexivity.
Defined.

Lemma handle_comm_without_tensor_witness :
  mesh_ranks (Scenario.runtime 0 1) (comm_in Scenario.edge) ≠ [] ∧
  (∀ t, val_to_IValue_ Scenario.fresh !! comm_in Scenario.edge
        ≠ Some (IVTensor t)) ∧
  handle_comm (Scenario.runtime 0 1) Scenario.edge Scenario.fresh
  = Fatal (match val_to_IValue_ Scenario.fresh !! comm_in Scenario.edge with
           | None => OutOfRange
           | Some _ => NotATensor
           end) Scenario.fresh.
Proof.
  split; [discriminate|]. split; [intros t; vm_compute; discriminate|].
  apply (handle_comm_without_tensor (Scenario.runtime 0 1) Scenario.edge
           Scenario.fresh);
    [discriminate | intros t; vm_compute; discriminate].
Defined.

Lemma handle_comm_frame_witness :
  ∃ ex',
    after (handle_comm (Scenario.runtime 0 1) Scenario.edge Scenario.produced)
    = Some ex' ∧
    should_run_ ex' = should_run_ Scenario.produced ∧
    fec_ ex' = fec_ Scenario.produced ∧
    (∀ v, v ≠ comm_out Scenario.edge →
          val_to_IValue_ ex' !! v = val_to_IValue_ Scenario.produced !! v) ∧
    ∃ new, trace ex' = trace Scenario.produced ++ new ∧
           length (sendRecv_calls new) = length new.
Proof.
  eexists. split; [vm_compute; reflexivity|].
  apply (handle_comm_frame (Scenario.runtime 0 1) Scenario.edge Scenario.produced).
  vm_compute; reflexivity.
Defined.

(** ** Bindings that a run leaves alone *)

Section Kept.

Context {Tensor Runner Comm : Type}.
Variable runtime_ : MultiDeviceRuntime Tensor Runner Comm.

Abbreviation Exec := (PipelineExecutor Tensor Runner Comm).

Lemma keeps_binding_refl v (ex : Exec) : keeps_binding v ex ex.
Proof. by intros iv. Qed.

Lemma keeps_binding_trans v (ex1 ex2 ex3 : Exec) :
  keeps_binding v ex1 ex2 → keeps_binding v ex2 ex3 → keeps_binding v ex1 ex3.
Proof. intros H1 H2 iv Hiv. by apply H2, H1. Qed.

Lemma keeps_val_index v w :
  respects (@keeps_binding Tensor Runner Comm v) (val_index w).
Proof.
  intros ex. unfold val_index.
  destruct (val_to_IValue_ ex !! w) eqn:Hw; [by intros iv|].
  intros iv Hiv. simpl. rewrite lookup_insert_ne; [done|]. by intros ->; simplify_eq.
Qed.

Lemma keeps_val_assign v w iv :
  v ≠ w → respects (@keeps_binding Tensor Runner Comm v) (val_assign w iv).
Proof. intros Hne ex iv' Hiv. simpl. by rewrite lookup_insert_ne. Qed.

Lemma keeps_handle v n :
  v ∉ node_writes runtime_ n →
  respects (@keeps_binding Tensor Runner Comm v) (handle runtime_ n).
Proof.
  intros Hv ex. destruct n as [stage|c]; simpl in *.
  - pose proof (handle_stage_after runtime_ stage ex) as Hafter.
    assert (∀ ex', after (handle_stage runtime_ stage ex) = Some ex' →
                   keeps_binding v ex ex') as Hkeep.
    { intros ex' ->%Hafter iv Hiv. simpl.
      rewrite bind_tensors_notin.
      - rewrite foldl_touch_lookup. case_decide; [|done].
        unfold read_or_default. by rewrite Hiv.
      - intros Hin. apply Hv.
        apply list_elem_of_fmap in Hin as ([w t] & -> & Hin).
        by eapply elem_of_zip_l. }
    destruct (handle_stage runtime_ stage ex); try done; by apply Hkeep.
  - apply not_elem_of_cons in Hv as [Hv _].
    destruct (handle_comm_cases runtime_ c ex)
      as [[_ ->]|[(_ & _ & ->)|[(_ & _ & ->)|
          (_ & t & ds & t' & c' & evs & _ & _ & _ & ->)]]];
      try done; try apply keeps_binding_refl.
    intros iv Hiv. simpl. by rewrite lookup_insert_ne.
Qed.

Lemma keeps_bind_inputs v ins range :
  (∀ k, k ∈ range → inputs (pipeline_ runtime_) !! k ≠ Some v) →
  respects (@keeps_binding Tensor Runner Comm v) (bind_inputs runtime_ range ins).
Proof.
  induction range as [|i range IH]; intros Hr ex; simpl.
  - apply keeps_binding_refl.
  - unfold bind at 1, vec_at at 1.
    destruct (ins !! i) as [iv|]; [|apply keeps_binding_refl]. simpl.
    unfold bind at 1, vec_at.
    destruct (inputs (pipeline_ runtime_) !! i) as [w|] eqn:Hw;
      [|apply keeps_binding_refl]. simpl.
    unfold bind. simpl.
    assert (v ≠ w) as Hne.
    { intros ->. by apply (Hr i); [left|]. }
    pose proof (keeps_val_assign v w iv Hne ex) as Hstep. simpl in Hstep.
    specialize (IH ltac:(intros k ?; apply Hr; by right)
                  (set_vals (<[w:=iv]> (val_to_IValue_ ex)) ex)).
    destruct (bind_inputs runtime_ range ins _); try done;
      by eapply keeps_binding_trans.
Qed.

(** With enough inputs on both sides the binding loop cannot fail, and it
    leaves each of its values bound to the input given at the same index,
    provided the declared inputs are pairwise distinct. *)
Lemma bind_inputs_binds ins n : ∀ i (ex : Exec),
  i + n ≤ length ins → i + n ≤ length (inputs (pipeline_ runtime_)) →
  NoDup (inputs (pipeline_ runtime_)) →
  ∃ ex', bind_inputs runtime_ (seq i n) ins ex = Ok tt ex' ∧
    ∀ k v iv, i ≤ k < i + n →
      inputs (pipeline_ runtime_) !! k = Some v → ins !! k = Some iv →
      val_to_IValue_ ex' !! v = Some iv.
Proof.
  induction n as [|n IH]; intros i ex Hi1 Hi2 Hnd; simpl.
  - exists ex. split; [done|]. intros; lia.
  - destruct (lookup_lt_is_Some_2 ins i) as [iv0 Hiv0]; [lia|].
    destruct (lookup_lt_is_Some_2 (inputs (pipeline_ runtime_)) i) as [v0 Hv0]; [lia|].
    unfold bind at 1, vec_at at 1. rewrite Hiv0. simpl.
    unfold bind at 1, vec_at. rewrite Hv0. simpl.
    unfold bind at 1. simpl.
    destruct (IH (S i) (set_vals (<[v0:=iv0]> (val_to_IValue_ ex)) ex))
      as (ex' & Hrest & Hlook); [lia|lia|done|].
    exists ex'. split; [done|].
    intros k v iv Hk Hv Hiv.
    destruct (decide (k = i)) as [->|Hne]; [|apply (Hlook k); [lia|done..]].
    rewrite Hv0 in Hv. rewrite Hiv0 in Hiv. injection Hv as <-. injection Hiv as <-.
    assert (respects (@keeps_binding Tensor Runner Comm v0)
              (bind_inputs runtime_ (seq (S i) n) ins)) as Hkeep.
    { apply keeps_bind_inputs. intros k [Hk1 Hk2]%elem_of_seq Hk3.
      pose proof (NoDup_lookup _ _ _ _ Hnd Hv0 Hk3). lia. }
    specialize (Hkeep (set_vals (<[v0:=iv0]> (val_to_IValue_ ex)) ex)).
    rewrite Hrest in Hkeep. apply Hkeep. simpl. apply lookup_insert_eq.
Qed.

Lemma keeps_traverse v nodes :
  (∀ n, n ∈ nodes → v ∉ node_writes runtime_ n) →
  respects (@keeps_binding Tensor Runner Comm v) (traverse runtime_ nodes).
Proof.
  intros Hw. apply respects_traverse;
    [apply keeps_binding_refl|apply keeps_binding_trans|].
  intros n Hn. by apply keeps_handle, Hw.
Qed.

Lemma keeps_collect_outputs v vals outs :
  respects (@keeps_binding Tensor Runner Comm v) (collect_outputs vals outs).
Proof.
  apply respects_collect_outputs;
    [apply keeps_binding_refl|apply keeps_binding_trans|apply keeps_val_index].
Qed.

(** X9.  A run given as many inputs as the pipeline declares, the declared
    inputs being pairwise distinct, leaves each input that no node of the
    traversal assigns bound to the value given for it, whether the run
    succeeds or throws later on. *)
Theorem run_keeps_input ins (ex ex' : Exec) k v iv :
  length ins = length (inputs (pipeline_ runtime_)) →
  NoDup (inputs (pipeline_ runtime_)) →
  inputs (pipeline_ runtime_) !! k = Some v →
  ins !! k = Some iv →
  (∀ n, n ∈ traversal (pipeline_ runtime_) → v ∉ node_writes runtime_ n) →
  after (runWithInput runtime_ ins ex) = Some ex' →
  val_to_IValue_ ex' !! v = Some iv.
Proof.
  intros Hlen Hnd Hv Hiv Hw Hafter.
  unfold runWithInput in Hafter.
  rewrite (proj2 (Nat.eqb_eq _ _) Hlen) in Hafter. simpl in Hafter.
  destruct (bind_inputs_binds ins (length ins) 0 ex) as (exa & Hbind & Hlook);
    [lia|lia|done|].
  unfold bind at 1 in Hafter. rewrite Hbind in Hafter.
  assert (val_to_IValue_ exa !! v = Some iv) as Hexa.
  { apply (Hlook k); [|done..]. apply lookup_lt_Some in Hiv. lia. }
  assert (respects (@keeps_binding Tensor Runner Comm v)
            (bind (traverse runtime_ (traversal (pipeline_ runtime_)))
               (λ _, collect_outputs (outputs (pipeline_ runtime_)) []))) as Hrest.
  { apply respects_bind; [apply keeps_binding_trans|by apply keeps_traverse|].
    intros _. apply keeps_collect_outputs. }
  by apply (respects_after _ _ _ _ Hrest Hafter).
Qed.

End Kept.

Lemma run_keeps_input_witness :
  ∃ ex',
    length [Scenario.payload] = length (inputs (pipeline_ (Scenario.runtime 1 1))) ∧
    NoDup (inputs (pipeline_ (Scenario.runtime 1 1))) ∧
    inputs (pipeline_ (Scenario.runtime 1 1)) !! 0 = Some 0 ∧
    [Scenario.payload] !! 0 = Some Scenario.payload ∧
    (∀ n, n ∈ traversal (pipeline_ (Scenario.runtime 1 1)) →
          0 ∉ node_writes (Scenario.runtime 1 1) n) ∧
    after (runWithInput (Scenario.runtime 1 1) [Scenario.payload] Scenario.fresh)
    = Some ex' ∧
    val_to_IValue_ ex' !! 0 = Some Scenario.payload.
Proof.
  assert (∀ n, n ∈ traversal (pipeline_ (Scenario.runtime 1 1)) →
               0 ∉ node_writes (Scenario.runtime 1 1) n) as Hw.
  { intros n Hn. simpl in Hn.
    repeat (apply elem_of_cons in Hn as [->|Hn]);
      [..|by apply elem_of_nil in Hn];
      apply (bool_decide_unpack _); vm_compute; exact I. }
  eexists.
  split; [reflexivity|]. split; [apply NoDup_singleton|].
  split; [reflexivity|]. split; [reflexivity|]. split; [exact Hw|].
  split; [vm_compute; reflexivity|].
  apply (run_keeps_input (Scenario.runtime 1 1) [Scenario.payload]
           Scenario.fresh _ 0 0 Scenario.payload);
    [reflexivity | apply NoDup_singleton | reflexivity | reflexivity
    | exact Hw | vm_compute; reflexivity].
Defined.

(** ** The executor over its lifetime *)

Section Lifetime.

Context {Tensor Runner Comm : Type}.
Variable runtime_ : MultiDeviceRuntime Tensor Runner Comm.

Abbreviation Exec := (PipelineExecutor Tensor Runner Comm).

(** X10.  No sequence of calls on an executor ever removes a value binding,
    removes or changes a cached membership, or drops a cached runner, and the
    record of what was done is only ever prolonged. *)
Theorem lifetime_monotone (ex ex' : Exec) cs :
  calls runtime_ ex cs = Some ex' →
  dom (val_to_IValue_ ex) ⊆ dom (val_to_IValue_ ex') ∧
  (∀ s b, should_run_ ex !! s = Some b → should_run_ ex' !! s = Some b) ∧
  dom (fec_ ex) ⊆ dom (fec_ ex') ∧
  trace ex `prefix_of` trace ex'.
Proof.
  intros Hcs. apply calls_extends in Hcs as [H1 _ H3 H4 (new & Htr & _)].
  split; [done|]. split; [|split; [done|by exists new]].
  intros s b Hb. by eapply lookup_weaken.
Qed.

Lemma constructed_app (tr1 tr2 : list (Event Tensor)) :
  constructed (tr1 ++ tr2) = constructed tr1 ++ constructed tr2.
Proof. apply omap_app. Qed.

Lemma computed_app (tr1 tr2 : list (Event Tensor)) :
  computed (tr1 ++ tr2) = computed tr1 ++ computed tr2.
Proof. apply omap_app. Qed.

Lemma keeps_tidy_refl (ex : Exec) : keeps_tidy ex ex.
Proof. by intros H. Qed.

Lemma keeps_tidy_trans (ex1 ex2 ex3 : Exec) :
  keeps_tidy ex1 ex2 → keeps_tidy ex2 ex3 → keeps_tidy ex1 ex3.
Proof. intros H1 H2 H. by apply H2, H1. Qed.

Lemma only_store_tidy (ex ex' : Exec) : only_store ex ex' → keeps_tidy ex ex'.
Proof.
  intros (H1 & H2 & _ & H4). unfold keeps_tidy, tidy. by rewrite H1, H2, H4.
Qed.

Lemma respects_only_store_tidy {A} (c : M A) :
  respects (@only_store Tensor Runner Comm) c →
  respects (@keeps_tidy Tensor Runner Comm) c.
Proof.
  intros Hc ex. specialize (Hc ex).
  destruct (c ex); try done; by apply only_store_tidy.
Qed.

Lemma NoDup_snoc_fresh (l : list nat) x : NoDup l → x ∉ l → NoDup (l ++ [x]).
Proof.
  intros Hl Hx. apply NoDup_app. split; [done|]. split; [|apply NoDup_singleton].
  intros y Hy ->%list_elem_of_singleton. done.
Qed.

Lemma elem_of_dom_insert {V} (m : gmap nat V) k x s :
  s ∈ dom (<[k:=x]> m) ↔ s = k ∨ s ∈ dom m.
Proof. by rewrite dom_insert_L, elem_of_union, elem_of_singleton. Qed.

(** Filling in one cache entry for a stage, with or without recording it. *)
Lemma fill_in {V} (l : list nat) (m : gmap nat V) stage x :
  NoDup l → (∀ s, s ∈ l ↔ s ∈ dom m) →
  NoDup (l ++ match m !! stage with Some _ => [] | None => [stage] end) ∧
  (∀ s, s ∈ l ++ match m !! stage with Some _ => [] | None => [stage] end
        ↔ s ∈ dom (<[stage:=x]> m)).
Proof.
  intros Hnd Hiff. destruct (m !! stage) as [y|] eqn:Hm.
  - rewrite app_nil_r. split; [done|]. intros s.
    rewrite elem_of_dom_insert, Hiff. split; [by right|].
    intros [->|?]; [|done]. apply elem_of_dom. eauto.
  - split.
    + apply NoDup_snoc_fresh; [done|]. rewrite Hiff. by apply not_elem_of_dom.
    + intros s. rewrite elem_of_app, list_elem_of_singleton, elem_of_dom_insert, Hiff.
      tauto.
Qed.

Lemma stage_events_constructed (ex : Exec) stage :
  constructed (stage_events runtime_ ex stage)
  = match fec_ ex !! stage with Some _ => [] | None => [stage] end.
Proof.
  unfold stage_events.
  by destruct (fec_ ex !! stage), (should_run_ ex !! stage),
    (stage_local runtime_ ex stage).
Qed.

Lemma stage_events_computed (ex : Exec) stage :
  computed (stage_events runtime_ ex stage)
  = match should_run_ ex !! stage with Some _ => [] | None => [stage] end.
Proof.
  unfold stage_events.
  by destruct (fec_ ex !! stage), (should_run_ ex !! stage),
    (stage_local runtime_ ex stage).
Qed.

Lemma keeps_tidy_handle_stage stage :
  respects (@keeps_tidy Tensor Runner Comm) (handle_stage runtime_ stage).
Proof.
  intros ex.
  assert (∀ ex', after (handle_stage runtime_ stage ex) = Some ex' →
                 keeps_tidy ex ex') as Hkeep.
  { intros ex' ->%handle_stage_after (Hc & Hm & Hci & Hmi).
    unfold tidy. simpl.
    rewrite constructed_app, computed_app,
      stage_events_constructed, stage_events_computed.
    destruct (fill_in _ (fec_ ex) stage (stage_call runtime_ ex stage).2 Hc Hci).
    destruct (fill_in _ (should_run_ ex) stage (stage_local runtime_ ex stage) Hm Hmi).
    done. }
  destruct (handle_stage runtime_ stage ex); try done; by apply Hkeep.
Qed.

Lemma keeps_tidy_shouldRun stage :
  respects (@keeps_tidy Tensor Runner Comm) (shouldRun runtime_ stage).
Proof.
  intros ex. destruct (should_run_ ex !! stage) as [b|] eqn:Hb.
  - rewrite (shouldRun_cached _ _ _ _ Hb). apply keeps_tidy_refl.
  - rewrite (shouldRun_first _ _ _ Hb). intros (Hc & Hm & Hci & Hmi).
    unfold tidy. simpl. rewrite constructed_app, computed_app. simpl.
    rewrite app_nil_r.
    destruct (fill_in _ (should_run_ ex) stage (in_mesh runtime_ stage) Hm Hmi)
      as [H1 H2].
    rewrite Hb in H1, H2. done.
Qed.

Lemma team_transfer_quiet sender_rank members : ∀ t (c : Comm),
  constructed (team_transfer runtime_ sender_rank members t c).2 = [] ∧
  computed (team_transfer runtime_ sender_rank members t c).2 = [].
Proof.
  induction members as [|m members IH]; intros t c; simpl; [done|].
  destruct (sendRecv runtime_ c m sender_rank t) as [t1 c1].
  specialize (IH t1 c1).
  by destruct (team_transfer runtime_ sender_rank members t1 c1) as [[t2 c2] evs].
Qed.

Lemma transfer_quiet communications : ∀ t (c : Comm),
  constructed (transfer runtime_ communications t c).2 = [] ∧
  computed (transfer runtime_ communications t c).2 = [].
Proof.
  induction communications as [|d ds IH]; intros t c; simpl; [done|].
  pose proof (team_transfer_quiet (root d) (team d) t c) as Hd.
  destruct (team_transfer runtime_ (root d) (team d) t c) as [[t1 c1] evs1].
  specialize (IH t1 c1).
  destruct (transfer runtime_ ds t1 c1) as [[t2 c2] evs2].
  simpl in *. rewrite constructed_app, computed_app.
  destruct Hd as [-> ->], IH as [-> ->]. done.
Qed.

Lemma keeps_tidy_handle_comm c :
  respects (@keeps_tidy Tensor Runner Comm) (handle_comm runtime_ c).
Proof.
  intros ex.
  destruct (handle_comm_cases runtime_ c ex)
    as [[_ ->]|[(_ & _ & ->)|[(_ & _ & ->)|
        (_ & t & ds & t' & c' & evs & _ & _ & Htr & ->)]]];
    try done; try apply keeps_tidy_refl.
  pose proof (transfer_quiet ds t (comm_ ex)) as Hq. rewrite Htr in Hq.
  destruct Hq as [Hq1 Hq2]. simpl in Hq1, Hq2.
  unfold keeps_tidy, tidy. simpl.
  by rewrite constructed_app, computed_app, Hq1, Hq2, !app_nil_r.
Qed.

Lemma keeps_tidy_runWithInput ins :
  respects (@keeps_tidy Tensor Runner Comm) (runWithInput runtime_ ins).
Proof.
  unfold runWithInput.
  destruct (negb _); [apply respects_throw, keeps_tidy_refl|].
  apply respects_bind; [apply keeps_tidy_trans|
    apply respects_only_store_tidy, only_store_bind_inputs|]. intros _.
  apply respects_bind; [apply keeps_tidy_trans| |].
  - apply respects_traverse; [apply keeps_tidy_refl|apply keeps_tidy_trans|].
    intros [stage|c] _; [apply keeps_tidy_handle_stage|apply keeps_tidy_handle_comm].
  - intros _. apply respects_only_store_tidy, only_store_collect_outputs.
Qed.

Lemma calls_tidy cs : ∀ (ex ex' : Exec),
  calls runtime_ ex cs = Some ex' → tidy ex → tidy ex'.
Proof.
  induction cs as [|c cs IH]; intros ex ex' Hcs Ht; simpl in Hcs.
  - by injection Hcs as <-.
  - destruct (call runtime_ ex c) as [ex1|] eqn:Hc; [|done].
    apply (IH _ _ Hcs).
    destruct c as [stage|stage|c|ins]; simpl in Hc.
    + by apply (respects_after _ _ _ _ (keeps_tidy_shouldRun stage) Hc).
    + by apply (respects_after _ _ _ _ (keeps_tidy_handle_stage stage) Hc).
    + by apply (respects_after _ _ _ _ (keeps_tidy_handle_comm c) Hc).
    + by apply (respects_after _ _ _ _ (keeps_tidy_runWithInput ins) Hc).
Qed.

(** X11.  Over the whole life of an executor, whatever calls it receives, a
    runner is constructed at most once per stage and a membership computed at
    most once per stage; the runner cache holds exactly the stages whose
    runner was constructed and the membership cache exactly the stages whose
    membership was computed. *)
Theorem once_per_stage (ex : Exec) :
  reachable runtime_ ex →
  NoDup (constructed (trace ex)) ∧
  NoDup (computed (trace ex)) ∧
  (∀ s, s ∈ constructed (trace ex) ↔ s ∈ dom (fec_ ex)) ∧
  (∀ s, s ∈ computed (trace ex) ↔ s ∈ dom (should_run_ ex)).
Proof.
  intros (c0 & cs & Hcs). apply (calls_tidy _ _ _ Hcs).
  unfold tidy. simpl. repeat split; try apply NoDup_nil_2;
    by intros ?%elem_of_nil || (rewrite dom_empty_L; intros ?%elem_of_empty).
Qed.

End Lifetime.

Lemma lifetime_monotone_witness :
  ∃ ex',
    calls (Scenario.runtime 1 1) Scenario.produced
      [CallRunWithInput [Scenario.payload]; CallShouldRun 1] = Some ex' ∧
    dom (val_to_IValue_ Scenario.produced) ⊆ dom (val_to_IValue_ ex') ∧
    (∀ s b, should_run_ Scenario.produced !! s = Some b →
            should_run_ ex' !! s = Some b) ∧
    dom (fec_ Scenario.produced) ⊆ dom (fec_ ex') ∧
    trace Scenario.produced `prefix_of` trace ex'.
Proof.
  eexists. split; [vm_compute; reflexivity|].
  apply (lifetime_monotone (Scenario.runtime 1 1) Scenario.produced _
           [CallRunWithInput [Scenario.payload]; CallShouldRun 1]).
  vm_compute; reflexivity.
Defined.

Lemma once_per_stage_witness :
  ∃ ex,
    calls (Scenario.runtime 1 1) Scenario.fresh
      [CallRunWithInput [Scenario.payload]; CallRunWithInput [Scenario.payload]]
    = Some ex ∧
    reachable (Scenario.runtime 1 1) ex ∧
    NoDup (constructed (trace ex)) ∧
    NoDup (computed (trace ex)) ∧
    (∀ s, s ∈ constructed (trace ex) ↔ s ∈ dom (fec_ ex)) ∧
    (∀ s, s ∈ computed (trace ex) ↔ s ∈ dom (should_run_ ex)).
Proof.
  eexists. split; [vm_compute; reflexivity|].
  match goal with |- reachable ?rt ?ex ∧ _ =>
    assert (reachable rt ex) as Hreach
  end.
  { exists 0, [CallRunWithInput [Scenario.payload];
               CallRunWithInput [Scenario.payload]].
    vm_compute; reflexivity. }
  split; [exact Hreach|].
  exact (once_per_stage (Scenario.runtime 1 1) _ Hreach).
Defined.

(** ** Shapes of the lowering *)

Lemma sliced_extra_length (senders receivers : list RankType) i d :
  senders ≠ [] →
  sliced (length receivers / length senders) (length receivers mod length senders)
    receivers 0 senders !! i = Some d →
  length (extra_receivers d)
  = nbr_dests (length receivers / length senders)
      (length receivers mod length senders) i.
Proof.
  intros HS Hd.
  assert (length senders ≠ 0) as Hn by (destruct senders; simpl; [done|lia]).
  pose proof (slice_start_end (length senders) (length receivers) Hn) as Hend.
  pose proof (lookup_lt_Some _ _ _ Hd) as Hi. rewrite sliced_length in Hi.
  destruct (sliced_lookup _ _ _ _ _ _ _ Hd) as (src & _ & ->).
  unfold extra_receivers. simpl. rewrite length_take, length_drop.
  pose proof (slice_start_mono (length receivers / length senders)
                (length receivers mod length senders) (S i) (length senders) Hi) as Hm.
  rewrite slice_start_S, Hend in Hm. lia.
Qed.

(** X12.  The lowering is balanced: the numbers of receivers given to any two
    senders differ by at most one, and an earlier sender never gets fewer
    receivers than a later one. *)
Theorem lower_balanced (senders receivers : list RankType) ds i j di dj :
  lower senders receivers = Done ds →
  ds !! i = Some di → ds !! j = Some dj → i ≤ j →
  length (extra_receivers dj) ≤ length (extra_receivers di) ∧
  length (extra_receivers di) ≤ length (extra_receivers dj) + 1.
Proof.
  intros Hlow Hi Hj Hij.
  assert (senders ≠ []) as HS by (intros ->; discriminate Hlow).
  rewrite (lower_sliced _ receivers HS) in Hlow. injection Hlow as <-.
  rewrite (sliced_extra_length _ _ _ _ HS Hi), (sliced_extra_length _ _ _ _ HS Hj).
  unfold nbr_dests.
  destruct (Nat.ltb_spec i (length receivers mod length senders)),
    (Nat.ltb_spec j (length receivers mod length senders)); lia.
Qed.

Lemma lower_balanced_witness :
  lower [10; 20; 30]%Z [1; 2; 3; 4]%Z
  = Done [{| team := [10; 1; 2]%Z; root := 10%Z |};
          {| team := [20; 3]%Z; root := 20%Z |};
          {| team := [30; 4]%Z; root := 30%Z |}] ∧
  length (extra_receivers {| team := [30; 4]%Z; root := 30%Z |})
  ≤ length (extra_receivers {| team := [10; 1; 2]%Z; root := 10%Z |}) ∧
  length (extra_receivers {| team := [10; 1; 2]%Z; root := 10%Z |})
  ≤ length (extra_receivers {| team := [30; 4]%Z; root := 30%Z |}) + 1.
Proof.
  split; [reflexivity|].
  apply (lower_balanced [10; 20; 30]%Z [1; 2; 3; 4]%Z
           [{| team := [10; 1; 2]%Z; root := 10%Z |};
            {| team := [20; 3]%Z; root := 20%Z |};
            {| team := [30; 4]%Z; root := 30%Z |}] 0 2);
    [reflexivity | reflexivity | reflexivity | lia].
Defined.

(** X13.  With a single sender the lowering yields a single descriptor,
    whose team is the sender followed by all the receivers in order. *)
Theorem lower_single_sender (src : RankType) (receivers : list RankType) :
  lower [src] receivers = Done [{| team := src :: receivers; root := src |}].
Proof.
  rewrite lower_sliced by done. change (length [src]) with 1.
  rewrite Nat.div_1_r, Nat.mod_1_r. simpl.
  unfold nbr_dests, slice_start. simpl.
  rewrite Nat.add_0_r, drop_0. by rewrite firstn_all.
Qed.

Lemma sliced_pairs (receivers : list RankType) srcs : ∀ i,
  i + length srcs ≤ length receivers →
  sliced 1 0 receivers i srcs
  = zip_with (λ src dst, {| team := [src; dst]; root := src |})
      srcs (drop i receivers).
Proof.
  induction srcs as [|src srcs IH]; intros i Hi; simpl; [done|].
  destruct (lookup_lt_is_Some_2 receivers i) as [dst Hdst]; [simpl in Hi; lia|].
  rewrite IH by (simpl in Hi; lia).
  unfold nbr_dests, slice_start. simpl.
  rewrite Nat.mul_1_r, Nat.min_0_r, Nat.add_0_r.
  by rewrite (drop_S _ _ _ Hdst).
Qed.

(** X14.  With as many receivers as senders (and at least one), the lowering
    pairs them off by position: the descriptor of sender [i] has the team
    made of that sender and receiver [i]. *)
Theorem lower_pairs (senders receivers : list RankType) :
  senders ≠ [] →
  length receivers = length senders →
  lower senders receivers
  = Done (zip_with (λ src dst, {| team := [src; dst]; root := src |})
            senders receivers).
Proof.
  intros HS Hlen.
  assert (length senders ≠ 0) as Hn by (destruct senders; simpl; [done|lia]).
  rewrite lower_sliced by done.
  rewrite Hlen, Nat.div_same, Nat.Div0.mod_same by done.
  rewrite sliced_pairs by (simpl; lia). by rewrite drop_0.
Qed.

Lemma lower_pairs_witness :
  [10; 20]%Z ≠ [] ∧
  length [1; 2]%Z = length [10; 20]%Z ∧
  lower [10; 20]%Z [1; 2]%Z
  = Done (zip_with (λ src dst, {| team := [src; dst]; root := src |})
            [10; 20]%Z [1; 2]%Z).
Proof.
  split; [discriminate|]. split; [reflexivity|].
  apply (lower_pairs [10; 20]%Z [1; 2]%Z); [discriminate | reflexivity].
Defined.
